(** * HANGNIMAL: the animal hangman server of [src/app.py]

    A shallow embedding of the round engine ([start_round], [api_guess],
    [api_hint_letter], [public_state], [mask_word]) and of the two cached
    lookups ([translate_to_th], [wikipedia_summary]), followed by the
    properties of the specification that concern them.

    Conventions of the embedding.
    - Python [int] is [Z] (unbounded, no wrap-around).
    - Python [str] is [string]; a one-character string that the code stores
      in a set or a list (a guessed letter) is an [ascii].  Texts are read
      as byte strings: an ASCII text is its own code-point sequence, the
      non-ASCII literals of the messages appear as their UTF-8 bytes.  The
      built-ins [str.strip], [str.lower] and [str.isalpha] are embedded on
      the ASCII range.
    - A Python [set] of letters is a [gset ascii]; a module-level [dict]
      used as a cache is a [gmap].
    - The session dictionary [st] is the record [State]; an absent session
      entry is [None].
    - The outside world (the translation library, the MyMemory service,
      Wikipedia, the random generator) is an oracle [Env] consulted at the
      current time, the number of consultations made so far; every
      consultation is appended to the [trace] of the [World], next to the
      two caches.  Effectful functions pass the [World] explicitly. *)

From Stdlib Require Import ZArith String Ascii List DecimalString Decimal Lia.
From stdpp Require Import base option gmap sets list strings sorting.

Open Scope string_scope.
Open Scope Z_scope.

(** ** Python built-ins used by the source *)

Module Py.

(** Truth value of a string: the empty string is false. *)
Definition truthy (s : string) : bool :=
  match s with
  | EmptyString => false
  | String _ _ => true
  end.

(** [a or b] on strings. *)
Definition or_else (a b : string) : string := if truthy a then a else b.

(** The ASCII characters that [str.strip()] removes: tab, line feed,
    vertical tab, form feed, carriage return, the separators 28 to 31 and
    the space. *)
Definition isspace (c : ascii) : bool :=
  let n := N_of_ascii c in
  ((9 <=? n) && (n <=? 13) || (28 <=? n) && (n <=? 32))%N.

Fixpoint lstrip (s : string) : string :=
  match s with
  | EmptyString => EmptyString
  | String c s' => if isspace c then lstrip s' else s
  end.

Fixpoint rstrip (s : string) : string :=
  match s with
  | EmptyString => EmptyString
  | String c s' =>
      let r := rstrip s' in
      if isspace c && negb (truthy r) then EmptyString else String c r
  end.

(** [s.strip()] *)
Definition strip (s : string) : string := rstrip (lstrip s).

Definition isupper (c : ascii) : bool :=
  let n := N_of_ascii c in ((65 <=? n) && (n <=? 90))%N.

Definition islower (c : ascii) : bool :=
  let n := N_of_ascii c in ((97 <=? n) && (n <=? 122))%N.

Definition lower_char (c : ascii) : ascii :=
  if isupper c then ascii_of_N (N_of_ascii c + 32) else c.

(** [s.lower()] *)
Fixpoint lower (s : string) : string :=
  match s with
  | EmptyString => EmptyString
  | String c s' => String (lower_char c) (lower s')
  end.

(** [c.isalpha()] for one character. *)
Definition isalpha_char (c : ascii) : bool := isupper c || islower c.

(** [s.isalpha()]: every character is a letter and there is at least
    one. *)
Definition isalpha (s : string) : bool :=
  truthy s && forallb isalpha_char (list_ascii_of_string s).

(** [str(n)] inside an f-string. *)
Definition str_of_int (n : Z) : string := NilZero.string_of_int (Z.to_int n).

(** Order of one-character strings: by code point. *)
Definition char_le (a b : ascii) : Prop := (N_of_ascii a <= N_of_ascii b)%N.

#[global] Instance char_le_dec : RelDecision char_le.
Proof. intros a b; unfold char_le; apply _. Defined.

(** [sorted(list(s))] for a set of letters, and [sorted({...})]. *)
Definition sorted (s : gset ascii) : list ascii :=
  merge_sort char_le (elements s).

(** The characters a [for c in word] loop visits. *)
Definition chars (s : string) : list ascii := list_ascii_of_string s.

(** [g[0]] of a string known to have one character. *)
Definition the_char (g : string) : ascii :=
  match g with
  | String c _ => c
  | EmptyString => Ascii.zero
  end.

End Py.

(** ** Constants *)

Definition START_LIFE : Z := 8.
Definition HINT_LETTER_MAX : Z := 2.
Definition HINT_LETTER_COST : Z := 2.

(** ** The outside world *)

(** The record [wikipedia_summary] returns and caches. *)
Record WikiInfo : Type := mkWikiInfo {
  wi_img : string;
  wi_desc_en : string;
  wi_extract_en : string
}.

Definition empty_info : WikiInfo :=
  {| wi_img := ""; wi_desc_en := ""; wi_extract_en := "" |}.

(** One consultation of the outside world. *)
Inductive Request : Type :=
| ReqTranslator (text : string)     (* Translator(...).translate(text) *)
| ReqMyMemory (text : string)       (* GET api.mymemory.translated.net *)
| ReqWikipedia (title : string)     (* GET en.wikipedia.org summary *)
| ReqRandom.                        (* random.choice *)

(** The oracle.  The [nat] argument is the time of the consultation.  For
    the three services [None] is a raised exception (time-out, network or
    decoding error), which the source catches.
    - [translator_translate]: the value of [tr.translate(text) or ""];
    - [mymemory_translatedText]: the value of
      [(data.get("responseData") or {}).get("translatedText") or ""];
    - [wikipedia_page]: the three fields read from the page summary, each
      already defaulted to [""] and not yet stripped;
    - [random_draw]: the draw of the generator;
    - [ANIMALS_first :: ANIMALS_rest] is the list [ANIMALS], which the
      start-up check of the source keeps non-empty. *)
Record Env : Type := mkEnv {
  HAS_TRANSLATE_LIB : bool;
  translator_translate : nat -> string -> option string;
  mymemory_translatedText : nat -> string -> option string;
  wikipedia_page : nat -> string -> option WikiInfo;
  random_draw : nat -> nat;
  ANIMALS_first : string;
  ANIMALS_rest : list string
}.

(** The process-wide mutable state: both caches and the consultations made
    so far, newest first. *)
Record World : Type := mkWorld {
  TRANSLATE_CACHE : gmap string string;
  WIKI_CACHE : gmap string WikiInfo;
  trace : list Request
}.

Definition initial_world : World :=
  {| TRANSLATE_CACHE := ∅; WIKI_CACHE := ∅; trace := [] |}.

Definition now (w : World) : nat := length (trace w).

Definition log_request (r : Request) (w : World) : World :=
  {| TRANSLATE_CACHE := TRANSLATE_CACHE w;
     WIKI_CACHE := WIKI_CACHE w;
     trace := r :: trace w |}.

(** [TRANSLATE_CACHE[key] = th] *)
Definition store_translation (key th : string) (w : World) : World :=
  {| TRANSLATE_CACHE := <[key := th]> (TRANSLATE_CACHE w);
     WIKI_CACHE := WIKI_CACHE w;
     trace := trace w |}.

(** [WIKI_CACHE[key] = out] *)
Definition store_summary (key : string) (out : WikiInfo) (w : World) : World :=
  {| TRANSLATE_CACHE := TRANSLATE_CACHE w;
     WIKI_CACHE := <[key := out]> (WIKI_CACHE w);
     trace := trace w |}.

(** [random.choice(seq)] on a sequence that is not empty. *)
Definition random_choice {A : Type} (env : Env) (x : A) (xs : list A)
    (w : World) : A * World :=
  (nth (random_draw env (now w) mod S (length xs))%nat (x :: xs) x,
   log_request ReqRandom w).

(** ** The cached lookups *)

(** Block B of [translate_to_th]: the MyMemory fall-back. *)
Definition translate_fallback (env : Env) (text key : string) (w : World)
    : string * World :=
  let t := now w in
  let w := log_request (ReqMyMemory text) w in
  match mymemory_translatedText env t text with
  | Some r =>
      let th := Py.strip r in
      (th, if Py.truthy th then store_translation key th w else w)
  | None => ("", w)
  end.

Definition translate_to_th (env : Env) (text : string) (w : World)
    : string * World :=
  let text := Py.strip text in
  if negb (Py.truthy text) then ("", w)
  else
    let key := Py.lower text in
    match TRANSLATE_CACHE w !! key with
    | Some th => (th, w)
    | None =>
        if HAS_TRANSLATE_LIB env then
          let t := now w in
          let w := log_request (ReqTranslator text) w in
          match translator_translate env t text with
          | Some r =>
              let th := Py.strip r in
              (th, if Py.truthy th then store_translation key th w else w)
          | None => translate_fallback env text key w
          end
        else translate_fallback env text key w
    end.

Definition wikipedia_summary (env : Env) (word : string) (w : World)
    : WikiInfo * World :=
  let word := Py.strip word in
  if negb (Py.truthy word) then (empty_info, w)
  else
    let key := Py.lower word in
    match WIKI_CACHE w !! key with
    | Some out => (out, w)
    | None =>
        let t := now w in
        let w := log_request (ReqWikipedia word) w in
        match wikipedia_page env t word with
        | Some data =>
            let out := {| wi_img := Py.strip (wi_img data);
                          wi_desc_en := Py.strip (wi_desc_en data);
                          wi_extract_en := Py.strip (wi_extract_en data) |} in
            (out, store_summary key out w)
        | None =>
            let out := empty_info in
            (out, store_summary key out w)
        end
    end.

(** ** The round state *)

Inductive Status : Type :=
| Playing   (* "playing" *)
| Failed.   (* "failed" *)

#[global] Instance Status_eq_dec : EqDecision Status.
Proof. solve_decision. Defined.

(** The dictionary kept under the session key ["game"]. *)
Record State : Type := mkState {
  stage : Z;
  life : Z;
  word : string;
  img : string;
  desc_en : string;
  extract_en : string;
  guessed : list ascii;
  wrong : list ascii;
  hint_letters_used : Z;
  status : Status;
  message : string;
  last_en : string;
  last_th : string;
  last_about_en : string;
  last_about_th : string
}.

(** Assignments [st[key] = value], one per key the handlers write. *)
Definition set_life (v : Z) (st : State) : State :=
  mkState (stage st) v (word st) (img st) (desc_en st) (extract_en st)
    (guessed st) (wrong st) (hint_letters_used st) (status st) (message st)
    (last_en st) (last_th st) (last_about_en st) (last_about_th st).

Definition set_guessed (v : list ascii) (st : State) : State :=
  mkState (stage st) (life st) (word st) (img st) (desc_en st) (extract_en st)
    v (wrong st) (hint_letters_used st) (status st) (message st)
    (last_en st) (last_th st) (last_about_en st) (last_about_th st).

Definition set_wrong (v : list ascii) (st : State) : State :=
  mkState (stage st) (life st) (word st) (img st) (desc_en st) (extract_en st)
    (guessed st) v (hint_letters_used st) (status st) (message st)
    (last_en st) (last_th st) (last_about_en st) (last_about_th st).

Definition set_hint_letters_used (v : Z) (st : State) : State :=
  mkState (stage st) (life st) (word st) (img st) (desc_en st) (extract_en st)
    (guessed st) (wrong st) v (status st) (message st)
    (last_en st) (last_th st) (last_about_en st) (last_about_th st).

Definition set_status (v : Status) (st : State) : State :=
  mkState (stage st) (life st) (word st) (img st) (desc_en st) (extract_en st)
    (guessed st) (wrong st) (hint_letters_used st) v (message st)
    (last_en st) (last_th st) (last_about_en st) (last_about_th st).

Definition set_message (v : string) (st : State) : State :=
  mkState (stage st) (life st) (word st) (img st) (desc_en st) (extract_en st)
    (guessed st) (wrong st) (hint_letters_used st) (status st) v
    (last_en st) (last_th st) (last_about_en st) (last_about_th st).

Definition set_last_en (v : string) (st : State) : State :=
  mkState (stage st) (life st) (word st) (img st) (desc_en st) (extract_en st)
    (guessed st) (wrong st) (hint_letters_used st) (status st) (message st)
    v (last_th st) (last_about_en st) (last_about_th st).

Definition set_last_th (v : string) (st : State) : State :=
  mkState (stage st) (life st) (word st) (img st) (desc_en st) (extract_en st)
    (guessed st) (wrong st) (hint_letters_used st) (status st) (message st)
    (last_en st) v (last_about_en st) (last_about_th st).

Definition set_last_about_en (v : string) (st : State) : State :=
  mkState (stage st) (life st) (word st) (img st) (desc_en st) (extract_en st)
    (guessed st) (wrong st) (hint_letters_used st) (status st) (message st)
    (last_en st) (last_th st) v (last_about_th st).

Definition set_last_about_th (v : string) (st : State) : State :=
  mkState (stage st) (life st) (word st) (img st) (desc_en st) (extract_en st)
    (guessed st) (wrong st) (hint_letters_used st) (status st) (message st)
    (last_en st) (last_th st) (last_about_en st) v.


(** ** Game state helpers *)

(** One cell of the masked word: [c if c in guessed else "_"]. *)
Definition mask_cell (guessed : gset ascii) (c : ascii) : ascii :=
  if decide (c ∈ guessed) then c else "_"%char.

Definition mask_word (word : string) (guessed : gset ascii) : string :=
  String.concat " "
    (map (fun c => String (mask_cell guessed c) EmptyString) (Py.chars word)).

Definition pick_word (env : Env) (w : World) : string * World :=
  random_choice env (ANIMALS_first env) (ANIMALS_rest env) w.

Definition start_round (env : Env) (stage life : Z) (w : World)
    : State * World :=
  let '(word, w) := pick_word env w in
  let '(info, w) := wikipedia_summary env word w in
  ({| stage := stage;
      life := life;
      word := word;
      img := wi_img info;
      desc_en := wi_desc_en info;
      extract_en := wi_extract_en info;
      guessed := [];
      wrong := [];
      hint_letters_used := 0;
      status := Playing;
      message := "🧩 STAGE " +:+ Py.str_of_int stage +:+ " started";
      last_en := "";
      last_th := "";
      last_about_en := "";
      last_about_th := "" |}, w).

(** The dictionary sent to the client. *)
Record PublicState : Type := mkPublicState {
  p_stage : Z;
  p_life : Z;
  p_length : nat;
  p_masked : string;
  p_wrong : list ascii;
  p_status : Status;
  p_message : string;
  p_img : string;
  p_hint_letters_used : Z;
  p_hint_letters_max : Z;
  p_last_en : string;
  p_last_th : string;
  p_last_about_en : string;
  p_last_about_th : string
}.

Definition public_state (st : State) : PublicState :=
  let guessed : gset ascii := list_to_set (guessed st) in
  let word := word st in
  let masked := if Py.truthy word then mask_word word guessed else "" in
  {| p_stage := stage st;
     p_life := life st;
     p_length := String.length word;
     p_masked := masked;
     p_wrong := wrong st;
     p_status := status st;
     p_message := message st;
     p_img := img st;
     p_hint_letters_used := hint_letters_used st;
     p_hint_letters_max := HINT_LETTER_MAX;
     p_last_en := last_en st;
     p_last_th := last_th st;
     p_last_about_en := last_about_en st;
     p_last_about_th := last_about_th st |}.

(** ** Routes *)

(** What a route answers. *)
Inductive Response : Type :=
| RespNoGame                      (* {"status": "no_game"} *)
| RespOk                          (* {"ok": true} *)
| RespErrorNoGame                 (* {"error": "no_game"}, 400 *)
| RespState (p : PublicState).    (* jsonify(public_state(st)) *)

(** A handler maps the session entry and the world to the session entry
    saved, the answer and the new world. *)
Definition Handled : Type := option State * Response * World.

(** [save_state(st); return jsonify(public_state(st))] *)
Definition save_and_answer (st : State) (w : World) : Handled :=
  (Some st, RespState (public_state st), w).

Definition api_state (sess : option State) (w : World) : Handled :=
  match sess with
  | None => (None, RespNoGame, w)
  | Some st => (Some st, RespState (public_state st), w)
  end.

Definition api_reset (sess : option State) (w : World) : Handled :=
  (None, RespOk, w).

Definition api_start (env : Env) (sess : option State) (w : World) : Handled :=
  let '(st, w) := start_round env 1 START_LIFE w in
  save_and_answer st w.

(** [all(c in guessed for c in word)] *)
Definition all_guessed (word : string) (guessed : gset ascii) : bool :=
  forallb (fun c => bool_decide (c ∈ guessed)) (Py.chars word).

(** [(st.get("desc_en") or st.get("extract_en") or "").strip()] *)
Definition about_text (st : State) : string :=
  Py.strip (Py.or_else (desc_en st) (Py.or_else (extract_en st) "")).

(** [guess] is the value of [data.get("guess")]: [None] when the body has
    no such key or no usable body at all. *)
Definition api_guess (env : Env) (guess : option string)
    (sess : option State) (w : World) : Handled :=
  match sess with
  | None => (None, RespErrorNoGame, w)
  | Some st =>
    if negb (bool_decide (status st = Playing)) then
      (Some st, RespState (public_state st), w)
    else
    let g := Py.strip (Py.lower (Py.or_else (default "" guess) "")) in
    if negb (String.length g =? 1)%nat || negb (Py.isalpha g) then
      let st := set_message "Enter ONE letter only (a-z)" st in
      save_and_answer st w
    else
    let c := Py.the_char g in
    let guessed : gset ascii := list_to_set (guessed st) in
    let wrong : gset ascii := list_to_set (wrong st) in
    let word := word st in
    let life := life st in
    if bool_decide (c ∈ guessed) || bool_decide (c ∈ wrong) then
      let st := set_message ("Already guessed: " +:+ g) st in
      save_and_answer st w
    else
    let '(guessed, wrong, life, st) :=
      if bool_decide (c ∈ Py.chars word) then
        let guessed := guessed ∪ {[c]} in
        let life := life + 2 in
        (guessed, wrong, life,
         set_message ("✅ Correct! +2 life -> " +:+ Py.str_of_int life) st)
      else
        let wrong := wrong ∪ {[c]} in
        let life := life - 1 in
        (guessed, wrong, life,
         set_message ("❌ Wrong! -1 life -> " +:+ Py.str_of_int life) st) in
    let st := set_guessed (Py.sorted guessed) st in
    let st := set_wrong (Py.sorted wrong) st in
    let st := set_life life st in
    (* fail *)
    if life <=? 0 then
      let about_en := about_text st in
      let st := set_status Failed st in
      let st := set_last_en word st in
      let '(th, w) := translate_to_th env word w in
      let st := set_last_th (Py.or_else th "-") st in
      let st := set_last_about_en (Py.or_else about_en "-") st in
      let '(tha, w) :=
        if Py.truthy about_en then translate_to_th env about_en w
        else ("-", w) in
      let st := set_last_about_th tha st in
      let st := set_message ("💀 GAME OVER! Word: " +:+ last_en st
                             +:+ " | ไทย: " +:+ last_th st) st in
      save_and_answer st w
    else
    (* clear -> next round immediately *)
    if all_guessed word guessed then
      let about_en := about_text st in
      let st := set_last_en word st in
      let '(th, w) := translate_to_th env word w in
      let st := set_last_th (Py.or_else th "-") st in
      let st := set_last_about_en (Py.or_else about_en "-") st in
      let '(tha, w) :=
        if Py.truthy about_en then translate_to_th env about_en w
        else ("-", w) in
      let st := set_last_about_th tha st in
      let next_stage := stage st + 1 in
      let next_life := life in
      let '(nxt, w) := start_round env next_stage next_life w in
      (* carry last reveal info into new round *)
      let nxt := set_last_en (last_en st) nxt in
      let nxt := set_last_th (last_th st) nxt in
      let nxt := set_last_about_en (last_about_en st) nxt in
      let nxt := set_last_about_th (last_about_th st) nxt in
      let nxt := set_message ("🎉 CLEAR! " +:+ last_en nxt +:+ " | ไทย: "
                              +:+ last_th nxt +:+ " → Next word!") nxt in
      save_and_answer nxt w
    else
      save_and_answer st w
  end.

Definition api_hint_letter (env : Env) (sess : option State) (w : World)
    : Handled :=
  match sess with
  | None => (None, RespErrorNoGame, w)
  | Some st =>
    if negb (bool_decide (status st = Playing)) then
      (Some st, RespState (public_state st), w)
    else
    let used := hint_letters_used st in
    if HINT_LETTER_MAX <=? used then
      let st := set_message "Hint letter limit reached (2 per word)." st in
      save_and_answer st w
    else
    let word := word st in
    let guessed : gset ascii := list_to_set (guessed st) in
    let remaining :=
      Py.sorted (list_to_set
        (filter (fun c => Py.isalpha_char c = true ∧ c ∉ guessed)
                (Py.chars word))) in
    match remaining with
    | [] =>
      let st := set_message "No letters left to reveal." st in
      save_and_answer st w
    | r :: rs =>
      let '(reveal, w) := random_choice env r rs w in
      let guessed := guessed ∪ {[reveal]} in
      let st := set_guessed (Py.sorted guessed) st in
      let st := set_hint_letters_used (used + 1) st in
      let st := set_life (life st - HINT_LETTER_COST) st in
      let st := set_message
        ("💡 Hint: '" +:+ String reveal "" +:+ "' (-"
         +:+ Py.str_of_int HINT_LETTER_COST +:+ " life) | "
         +:+ Py.str_of_int (hint_letters_used st) +:+ "/"
         +:+ Py.str_of_int HINT_LETTER_MAX) st in
      (* fail after hint *)
      if life st <=? 0 then
        let about_en := about_text st in
        let st := set_status Failed st in
        let st := set_last_en word st in
        let '(th, w) := translate_to_th env word w in
        let st := set_last_th (Py.or_else th "-") st in
        let st := set_last_about_en (Py.or_else about_en "-") st in
        let '(tha, w) :=
          if Py.truthy about_en then translate_to_th env about_en w
          else ("-", w) in
        let st := set_last_about_th tha st in
        let st := set_message ("💀 GAME OVER! Word: " +:+ last_en st
                               +:+ " | ไทย: " +:+ last_th st) st in
        save_and_answer st w
      else
      (* clear after hint -> next round *)
      if all_guessed word guessed then
        let about_en := about_text st in
        let st := set_last_en word st in
        let '(th, w) := translate_to_th env word w in
        let st := set_last_th (Py.or_else th "-") st in
        let st := set_last_about_en (Py.or_else about_en "-") st in
        let '(tha, w) :=
          if Py.truthy about_en then translate_to_th env about_en w
          else ("-", w) in
        let st := set_last_about_th tha st in
        let next_stage := stage st + 1 in
        let '(nxt, w) := start_round env next_stage (life st) w in
        let nxt := set_last_en (last_en st) nxt in
        let nxt := set_last_th (last_th st) nxt in
        let nxt := set_last_about_en (last_about_en st) nxt in
        let nxt := set_last_about_th (last_about_th st) nxt in
        let nxt := set_message ("🎉 CLEAR! " +:+ last_en nxt +:+ " | ไทย: "
                                +:+ last_th nxt +:+ " → Next word!") nxt in
        save_and_answer nxt w
      else
        save_and_answer st w
    end
  end.

(** ** The command surface *)

Inductive Command : Type :=
| CmdState
| CmdReset
| CmdStart
| CmdGuess (guess : option string)
| CmdHint.

Definition handle (env : Env) (cmd : Command) (sess : option State)
    (w : World) : Handled :=
  match cmd with
  | CmdState => api_state sess w
  | CmdReset => api_reset sess w
  | CmdStart => api_start env sess w
  | CmdGuess guess => api_guess env guess sess w
  | CmdHint => api_hint_letter env sess w
  end.

(** A session as the server sees it: commands handled one after another. *)
Fixpoint run (env : Env) (cmds : list Command) (sess : option State)
    (w : World) : option State * World :=
  match cmds with
  | [] => (sess, w)
  | cmd :: cmds =>
      let '(sess, _, w) := handle env cmd sess w in
      run env cmds sess w
  end.

(** The session entries and worlds the server can be in: it starts with
    empty caches and no session entry, and handles commands. *)
Inductive reachable (env : Env) : option State -> World -> Prop :=
| reachable_initial : reachable env None initial_world
| reachable_handle cmd sess w sess' resp w' :
    reachable env sess w ->
    handle env cmd sess w = (sess', resp, w') ->
    reachable env sess' w'.

(** ** Vocabulary of the properties

    The handlers are written as one body each; the definitions below name
    the parts of those bodies the properties speak about.  They are related
    to the handlers by [api_guess_accepted] and [api_hint_letter_accepted]. *)

(** The letter [g] a guess is reduced to: lower-cased, then stripped. *)
Definition normalize_guess (guess : option string) : string :=
  Py.strip (Py.lower (Py.or_else (default "" guess) "")).

Definition guess_letter (guess : option string) : ascii :=
  Py.the_char (normalize_guess guess).

(** The test [len(g) != 1 or not g.isalpha()] is passed. *)
Definition guess_valid (guess : option string) : Prop :=
  String.length (normalize_guess guess) = 1%nat ∧
  Py.isalpha (normalize_guess guess) = true.

(** The letter was not tried before. *)
Definition guess_fresh (st : State) (guess : option string) : Prop :=
  (guess_letter guess ∉ guessed st) ∧ (guess_letter guess ∉ wrong st).


(** The letters a hint may reveal, in the order the source sorts them. *)
Definition remaining_letters (st : State) : list ascii :=
  Py.sorted (list_to_set
    (filter (fun c => Py.isalpha_char c = true
                      ∧ c ∉ (list_to_set (guessed st) : gset ascii))
            (Py.chars (word st)))).

(** The letter the hint reveals in world [w]. *)
Definition hint_reveal (env : Env) (st : State) (w : World) : ascii :=
  match remaining_letters st with
  | [] => Ascii.zero
  | r :: rs => fst (random_choice env r rs w)
  end.

(** A guess or a hint that passes every check of its handler. *)
Definition accepted (st : State) (cmd : Command) : Prop :=
  match cmd with
  | CmdGuess guess => guess_valid guess ∧ guess_fresh st guess
  | CmdHint =>
      (hint_letters_used st < HINT_LETTER_MAX) ∧ remaining_letters st ≠ []
  | _ => False
  end.

(** The change of life the specification gives to an accepted move. *)
Definition life_delta (st : State) (cmd : Command) : Z :=
  match cmd with
  | CmdGuess guess =>
      if bool_decide (guess_letter guess ∈ Py.chars (word st)) then 2 else -1
  | CmdHint => - 2
  | _ => 0
  end.

(** The local set [guessed] when the move reaches the end-of-round check. *)
Definition guessed_after (env : Env) (st : State) (cmd : Command) (w : World)
    : gset ascii :=
  match cmd with
  | CmdGuess guess =>
      if bool_decide (guess_letter guess ∈ Py.chars (word st))
      then list_to_set (guessed st) ∪ {[guess_letter guess]}
      else list_to_set (guessed st)
  | CmdHint => list_to_set (guessed st) ∪ {[hint_reveal env st w]}
  | _ => list_to_set (guessed st)
  end.

(** The world in which the end-of-round check runs: a hint has drawn its
    letter by then. *)
Definition world_at_check (cmd : Command) (w : World) : World :=
  match cmd with
  | CmdHint => log_request ReqRandom w
  | _ => w
  end.

(** The state a fresh valid guess of the letter [c] leaves before the
    end-of-round check (the assignments up to [st["life"] = life]). *)
Definition guess_applied (st : State) (c : ascii) : State :=
  let G : gset ascii := list_to_set (guessed st) in
  let W : gset ascii := list_to_set (wrong st) in
  if bool_decide (c ∈ Py.chars (word st)) then
    set_life (life st + 2)
      (set_wrong (Py.sorted W)
        (set_guessed (Py.sorted (G ∪ {[c]}))
          (set_message ("✅ Correct! +2 life -> "
                        +:+ Py.str_of_int (life st + 2)) st)))
  else
    set_life (life st - 1)
      (set_wrong (Py.sorted (W ∪ {[c]}))
        (set_guessed (Py.sorted G)
          (set_message ("❌ Wrong! -1 life -> "
                        +:+ Py.str_of_int (life st - 1)) st))).

(** The state an accepted hint revealing [reveal] leaves before the
    end-of-round check (the assignments up to the hint message). *)
Definition hint_applied (st : State) (reveal : ascii) : State :=
  let G : gset ascii := list_to_set (guessed st) in
  set_message
    ("💡 Hint: '" +:+ String reveal "" +:+ "' (-"
     +:+ Py.str_of_int HINT_LETTER_COST +:+ " life) | "
     +:+ Py.str_of_int (hint_letters_used st + 1) +:+ "/"
     +:+ Py.str_of_int HINT_LETTER_MAX)
    (set_life (life st - HINT_LETTER_COST)
      (set_hint_letters_used (hint_letters_used st + 1)
        (set_guessed (Py.sorted (G ∪ {[reveal]})) st))).

(** The state either move leaves before the end-of-round check. *)
Definition move_applied (env : Env) (st : State) (cmd : Command) (w : World)
    : State :=
  match cmd with
  | CmdGuess guess => guess_applied st (guess_letter guess)
  | CmdHint => hint_applied st (hint_reveal env st w)
  | _ => st
  end.

(** The reveal block, which the source writes out four times (fail and
    clear, in both handlers): the four [last_*] assignments. *)
Definition capture_reveal (env : Env) (st : State) (w : World)
    : State * World :=
  let about_en := about_text st in
  let word := word st in
  let st := set_last_en word st in
  let '(th, w) := translate_to_th env word w in
  let st := set_last_th (Py.or_else th "-") st in
  let st := set_last_about_en (Py.or_else about_en "-") st in
  let '(tha, w) :=
    if Py.truthy about_en then translate_to_th env about_en w
    else ("-", w) in
  (set_last_about_th tha st, w).

(** The four assignments that carry the reveal into the next round, and
    its message. *)
Definition carry_reveal (st nxt : State) : State :=
  let nxt := set_last_en (last_en st) nxt in
  let nxt := set_last_th (last_th st) nxt in
  let nxt := set_last_about_en (last_about_en st) nxt in
  let nxt := set_last_about_th (last_about_th st) nxt in
  set_message ("🎉 CLEAR! " +:+ last_en nxt +:+ " | ไทย: "
               +:+ last_th nxt +:+ " → Next word!") nxt.

(** The end-of-round check both handlers finish with: fail first, then
    clear, else the round goes on. *)
Definition end_of_round (env : Env) (G : gset ascii) (st : State) (w : World)
    : Handled :=
  if life st <=? 0 then
    let '(st, w) := capture_reveal env (set_status Failed st) w in
    save_and_answer
      (set_message ("💀 GAME OVER! Word: " +:+ last_en st
                    +:+ " | ไทย: " +:+ last_th st) st) w
  else if all_guessed (word st) G then
    let '(st, w) := capture_reveal env st w in
    let '(nxt, w) := start_round env (stage st + 1) (life st) w in
    save_and_answer (carry_reveal st nxt) w
  else save_and_answer st w.

(** The four reveal fields of a state. *)
Definition last_reveal (st : State) : string * string * string * string :=
  (last_en st, last_th st, last_about_en st, last_about_th st).

(** The saved state of a handled command (the state itself when the
    session entry is dropped). *)
Definition saved (h : Handled) (st : State) : State := default st (fst (fst h)).

(** Two states that differ at most in their message. *)
Definition same_but_message (st st' : State) : Prop :=
  set_message "" st = set_message "" st'.

(** The second world has every cache entry and every consultation of the
    first. *)
Definition world_extends (w w' : World) : Prop :=
  (∀ k v, TRANSLATE_CACHE w !! k = Some v → TRANSLATE_CACHE w' !! k = Some v) ∧
  (∀ k v, WIKI_CACHE w !! k = Some v → WIKI_CACHE w' !! k = Some v) ∧
  (∃ new, trace w' = (new ++ trace w)%list).

(** The values the reveal block computes, as functions of the state and the
    world it runs in. *)
Definition revealed_th (env : Env) (st : State) (w : World) : string :=
  Py.or_else (fst (translate_to_th env (word st) w)) "-".

Definition revealed_about_th (env : Env) (st : State) (w : World) : string :=
  if Py.truthy (about_text st)
  then fst (translate_to_th env (about_text st)
              (snd (translate_to_th env (word st) w)))
  else "-".

(** A guess or a hint, the two commands that can change a round. *)
Definition is_move (cmd : Command) : Prop :=
  match cmd with
  | CmdGuess _ | CmdHint => True
  | _ => False
  end.

#[global] Instance guess_valid_dec guess : Decision (guess_valid guess).
Proof. unfold guess_valid; apply _. Defined.

#[global] Instance guess_fresh_dec st guess : Decision (guess_fresh st guess).
Proof. unfold guess_fresh; apply _. Defined.

#[global] Instance accepted_dec st cmd : Decision (accepted st cmd).
Proof. destruct cmd; cbn [accepted]; apply _. Defined.

(** The consultations a translation of [text] may make. *)
Definition translation_request (text : string) (r : Request) : Prop :=
  r = ReqTranslator text ∨ r = ReqMyMemory text.

(** What every session entry the server can reach satisfies. *)
Definition round_invariant (st : State) : Prop :=
  (status st = Failed ↔ life st ≤ 0) ∧
  0 ≤ hint_letters_used st ≤ HINT_LETTER_MAX.

(** ** Concrete scenarios

    An environment without the translation library, in which MyMemory
    knows the word "cat" only and fails otherwise, Wikipedia knows every
    page but "emu", and the generator draws the time itself. *)
Definition demo_env : Env :=
  {| HAS_TRANSLATE_LIB := false;
     translator_translate := fun _ _ => None;
     mymemory_translatedText := fun _ text =>
       if String.eqb text "cat" then Some " แมว " else None;
     wikipedia_page := fun _ title =>
       if String.eqb title "emu" then None
       else Some {| wi_img := "https://upload.example/" +:+ title;
                    wi_desc_en := "Animal called " +:+ title;
                    wi_extract_en := "" |};
     random_draw := fun t => t;
     ANIMALS_first := "cat";
     ANIMALS_rest := ["dog"; "owl"] |}.

(** A round on the word [wd] as [start_round] would have made it, at the
    given life, tried letters and hint count. *)
Definition demo_round (wd : string) (l : Z) (g wr : list ascii) (used : Z)
    (s : Status) : State :=
  {| stage := 1; life := l; word := wd;
     img := "https://upload.example/" +:+ wd;
     desc_en := "Animal called " +:+ wd;
     extract_en := "";
     guessed := g; wrong := wr; hint_letters_used := used;
     status := s;
     message := "";
     last_en := ""; last_th := ""; last_about_en := ""; last_about_th := "" |}.

(** A lost game: a start, then eight wrong letters. *)
Definition demo_wrong_guesses : list Command :=
  [CmdStart; CmdGuess (Some "x"); CmdGuess (Some "y"); CmdGuess (Some "z");
   CmdGuess (Some "q"); CmdGuess (Some "w"); CmdGuess (Some "v");
   CmdGuess (Some "u"); CmdGuess (Some "k")].

Definition demo_lost : State :=
  default (demo_round "" 0 [] [] 0 Failed)
    (fst (run demo_env demo_wrong_guesses None initial_world)).

(** ** Loading the words

    The module-level code that fills [ANIMALS] from [animals.txt].  The
    file is given by its lines, the result of [read_text(...).splitlines()];
    [None] is a file that does not exist. *)

Inductive StartupError : Type :=
| FileNotFoundError   (* animals.txt not found next to app.py *)
| ValueError.         (* animals.txt is empty or has no valid a-z words *)

(** One turn of the loop over the lines. *)
Definition load_line (ANIMALS : list string) (line : string) : list string :=
  let w := Py.lower (Py.strip line) in
  if Py.truthy w && Py.isalpha w then (ANIMALS ++ [w])%list else ANIMALS.

Definition load_words (file : option (list string))
    : StartupError + list string :=
  match file with
  | None => inl FileNotFoundError
  | Some lines =>
      let ANIMALS := fold_left load_line lines [] in
      match ANIMALS with
      | [] => inl ValueError
      | _ :: _ => inr ANIMALS
      end
  end.

(** The word a line contributes, if any. *)
Definition keep_word (line : string) : option string :=
  let w := Py.lower (Py.strip line) in
  if Py.isalpha w then Some w else None.

(** A word made of one or more lower-case letters a to z. *)
Definition lowercase_word (s : string) : Prop :=
  s ≠ "" ∧ Forall (fun c => Py.islower c = true) (Py.chars s).

(** A text made of white space only (possibly empty). *)
Definition blank (s : string) : Prop :=
  Forall (fun c => Py.isspace c = true) (Py.chars s).

(** The list [ANIMALS] of an environment. *)
Definition ANIMALS (env : Env) : list string :=
  ANIMALS_first env :: ANIMALS_rest env.

(** What the letters and the reveal of every reachable session entry
    satisfy. *)
Definition round_wellformed (env : Env) (st : State) : Prop :=
  word st ∈ ANIMALS env
  ∧ (∀ c, c ∈ guessed st → c ∈ Py.chars (word st))
  ∧ (∀ c, c ∈ wrong st → c ∉ Py.chars (word st))
  ∧ (StronglySorted Py.char_le (guessed st) ∧ NoDup (guessed st))
  ∧ (StronglySorted Py.char_le (wrong st) ∧ NoDup (wrong st))
  ∧ 1 ≤ stage st
  ∧ (status st = Failed →
     last_en st = word st ∧ last_th st ≠ "" ∧ last_about_en st ≠ "")
  ∧ (status st = Playing → Py.truthy (word st) = true →
     all_guessed (word st) (list_to_set (guessed st)) = false).

(** The summary shown with a round is the one cached for its word. *)
Definition summary_cached (st : State) (w : World) : Prop :=
  Py.truthy (Py.strip (word st)) = true →
  WIKI_CACHE w !! Py.lower (Py.strip (word st))
  = Some {| wi_img := img st; wi_desc_en := desc_en st;
            wi_extract_en := extract_en st |}.

(** No cached translation is the empty string. *)
Definition translations_nonempty (w : World) : Prop :=
  ∀ k v, TRANSLATE_CACHE w !! k = Some v → v ≠ "".

(** An environment whose word list is what [load_words] makes of a file
    of a few lines, and a longer session. *)
Definition demo_lines : list string := ["  Cat "; "dog"; "sea lion"; ""; "OWL"].

Definition demo_game : list Command :=
  [CmdStart; CmdGuess (Some "c"); CmdGuess (Some "x"); CmdHint;
   CmdGuess (Some "T")].

(** ** The handlers, path by path *)

(** Runs through the lets of a handler body: evaluates the field reads and
    names the result of every lookup met on the way. *)
Ltac step_through :=
  cbn -[translate_to_th start_round Py.str_of_int Py.strip Py.or_else
        Py.truthy Py.sorted];
  repeat (match goal with
          | |- context [translate_to_th ?e ?t ?x] =>
              destruct (translate_to_th e t x)
          | |- context [if Py.truthy ?b then _ else _] => destruct (Py.truthy b)
          | |- context [start_round ?e ?s ?l ?x] =>
              destruct (start_round e s l x)
          end;
          cbn -[translate_to_th start_round Py.str_of_int Py.strip Py.or_else
                Py.truthy Py.sorted]);
  try reflexivity.

Lemma api_guess_not_playing env guess st w :
  status st ≠ Playing →
  api_guess env guess (Some st) w = (Some st, RespState (public_state st), w).
Proof.
  intros Hs. unfold api_guess.
  rewrite (bool_decide_eq_false_2 _ Hs). reflexivity.
Qed.

Lemma api_guess_invalid env guess st w :
  status st = Playing →
  ¬ guess_valid guess →
  api_guess env guess (Some st) w =
  save_and_answer (set_message "Enter ONE letter only (a-z)" st) w.
Proof.
  intros Hs Hv. unfold api_guess.
  rewrite (bool_decide_eq_true_2 _ Hs). cbn [negb].
  change (Py.strip (Py.lower (Py.or_else (default "" guess) "")))
    with (normalize_guess guess).
  destruct (negb (String.length (normalize_guess guess) =? 1)%nat
            || negb (Py.isalpha (normalize_guess guess))) eqn:E; [reflexivity|].
  exfalso. apply Hv. apply orb_false_elim in E as [E1 E2].
  apply negb_false_iff in E1, E2. apply Nat.eqb_eq in E1. by split.
Qed.

Lemma guess_valid_test guess :
  guess_valid guess →
  negb (String.length (normalize_guess guess) =? 1)%nat
  || negb (Py.isalpha (normalize_guess guess)) = false.
Proof.
  intros [H1 H2]. rewrite H1, H2. reflexivity.
Qed.

Lemma api_guess_repeated env guess st w :
  status st = Playing →
  guess_valid guess →
  ¬ guess_fresh st guess →
  api_guess env guess (Some st) w =
  save_and_answer
    (set_message ("Already guessed: " +:+ normalize_guess guess) st) w.
Proof.
  intros Hs Hv Hf. unfold api_guess.
  rewrite (bool_decide_eq_true_2 _ Hs). cbn [negb].
  change (Py.strip (Py.lower (Py.or_else (default "" guess) "")))
    with (normalize_guess guess).
  rewrite (guess_valid_test _ Hv).
  change (Py.the_char (normalize_guess guess)) with (guess_letter guess).
  destruct (bool_decide (guess_letter guess ∈ (list_to_set (guessed st) : gset ascii))
            || bool_decide (guess_letter guess ∈ (list_to_set (wrong st) : gset ascii)))
    eqn:E; [reflexivity|].
  exfalso. apply Hf. apply orb_false_elim in E as [E1 E2].
  apply bool_decide_eq_false in E1, E2.
  rewrite elem_of_list_to_set in E1, E2. by split.
Qed.

Lemma guess_fresh_test st guess :
  guess_fresh st guess →
  bool_decide (guess_letter guess ∈ (list_to_set (guessed st) : gset ascii))
  || bool_decide (guess_letter guess ∈ (list_to_set (wrong st) : gset ascii))
  = false.
Proof.
  intros [H1 H2].
  rewrite !bool_decide_eq_false_2; [reflexivity | |];
    by rewrite elem_of_list_to_set.
Qed.

Lemma api_guess_accepted env guess st w :
  status st = Playing →
  guess_valid guess →
  guess_fresh st guess →
  api_guess env guess (Some st) w =
  end_of_round env (guessed_after env st (CmdGuess guess) w)
    (guess_applied st (guess_letter guess)) w.
Proof.
  intros Hs Hv Hf. unfold api_guess.
  rewrite (bool_decide_eq_true_2 _ Hs). cbn [negb].
  change (Py.strip (Py.lower (Py.or_else (default "" guess) "")))
    with (normalize_guess guess).
  rewrite (guess_valid_test _ Hv).
  change (Py.the_char (normalize_guess guess)) with (guess_letter guess).
  rewrite (guess_fresh_test _ _ Hf).
  unfold end_of_round, guess_applied, guessed_after, capture_reveal, about_text.
  destruct (bool_decide (guess_letter guess ∈ Py.chars (word st)));
    cbn [life set_life set_wrong set_guessed set_message word stage];
    (destruct (_ <=? 0); [| destruct (all_guessed _ _)]);
    step_through.
Qed.

Lemma api_hint_letter_not_playing env st w :
  status st ≠ Playing →
  api_hint_letter env (Some st) w =
  (Some st, RespState (public_state st), w).
Proof.
  intros Hs. unfold api_hint_letter.
  rewrite (bool_decide_eq_false_2 _ Hs). reflexivity.
Qed.

Lemma api_hint_letter_exhausted env st w :
  status st = Playing →
  HINT_LETTER_MAX ≤ hint_letters_used st →
  api_hint_letter env (Some st) w =
  save_and_answer
    (set_message "Hint letter limit reached (2 per word)." st) w.
Proof.
  intros Hs Hu. unfold api_hint_letter.
  rewrite (bool_decide_eq_true_2 _ Hs). cbn [negb].
  apply Z.leb_le in Hu. rewrite Hu. reflexivity.
Qed.

Lemma api_hint_letter_nothing_left env st w :
  status st = Playing →
  hint_letters_used st < HINT_LETTER_MAX →
  remaining_letters st = [] →
  api_hint_letter env (Some st) w =
  save_and_answer (set_message "No letters left to reveal." st) w.
Proof.
  intros Hs Hu Hr. unfold api_hint_letter.
  rewrite (bool_decide_eq_true_2 _ Hs). cbn [negb].
  apply Z.leb_gt in Hu. rewrite Hu.
  unfold remaining_letters in Hr. rewrite Hr. reflexivity.
Qed.

Lemma api_hint_letter_accepted env st w :
  status st = Playing →
  accepted st CmdHint →
  api_hint_letter env (Some st) w =
  end_of_round env (guessed_after env st CmdHint w)
    (hint_applied st (hint_reveal env st w)) (log_request ReqRandom w).
Proof.
  intros Hs [Hu Hr]. unfold api_hint_letter.
  rewrite (bool_decide_eq_true_2 _ Hs). cbn [negb].
  apply Z.leb_gt in Hu. rewrite Hu.
  unfold guessed_after, hint_reveal.
  unfold remaining_letters in *.
  destruct (Py.sorted _) as [|r rs] eqn:E; [done|].
  unfold random_choice at 1. cbn [fst].
  unfold end_of_round, hint_applied, capture_reveal, about_text.
  cbn [life set_life set_hint_letters_used set_guessed set_message word
       stage hint_letters_used].
  (destruct (_ <=? 0); [| destruct (all_guessed _ _)]);
    step_through.
Qed.

(** ** The parts of the end-of-round check *)

Lemma start_round_spec env s l w :
  ∃ wd info w',
    start_round env s l w =
    ({| stage := s; life := l; word := wd;
        img := wi_img info; desc_en := wi_desc_en info;
        extract_en := wi_extract_en info;
        guessed := []; wrong := []; hint_letters_used := 0;
        status := Playing;
        message := "🧩 STAGE " +:+ Py.str_of_int s +:+ " started";
        last_en := ""; last_th := ""; last_about_en := "";
        last_about_th := "" |}, w').
Proof.
  unfold start_round.
  destruct (pick_word env w) as [wd w1].
  destruct (wikipedia_summary env wd w1) as [info w2].
  by exists wd, info, w2.
Qed.

Lemma capture_reveal_spec env st w :
  ∃ w',
    capture_reveal env st w =
    (set_last_about_th (revealed_about_th env st w)
       (set_last_about_en (Py.or_else (about_text st) "-")
          (set_last_th (revealed_th env st w)
             (set_last_en (word st) st))), w').
Proof.
  unfold capture_reveal, revealed_th, revealed_about_th.
  destruct (translate_to_th env (word st) w) as [th w1]. cbn [fst snd].
  destruct (Py.truthy (about_text st)).
  - destruct (translate_to_th env (about_text st) w1) as [tha w2].
    by exists w2.
  - by exists w1.
Qed.

Lemma end_of_round_fail env G st w :
  life st ≤ 0 →
  ∃ w',
    end_of_round env G st w =
    save_and_answer
      (set_message ("💀 GAME OVER! Word: " +:+ word st
                    +:+ " | ไทย: " +:+ revealed_th env st w)
        (set_last_about_th (revealed_about_th env st w)
          (set_last_about_en (Py.or_else (about_text st) "-")
            (set_last_th (revealed_th env st w)
              (set_last_en (word st) (set_status Failed st)))))) w'.
Proof.
  intros Hl. unfold end_of_round. apply Z.leb_le in Hl. rewrite Hl.
  destruct (capture_reveal_spec env (set_status Failed st) w) as [w' ->].
  by exists w'.
Qed.

Lemma end_of_round_clear env G st w :
  0 < life st →
  all_guessed (word st) G = true →
  ∃ nxt w1 w',
    start_round env (stage st + 1) (life st) w1 = (nxt, w') ∧
    end_of_round env G st w =
    save_and_answer
      (set_message ("🎉 CLEAR! " +:+ word st +:+ " | ไทย: "
                    +:+ revealed_th env st w +:+ " → Next word!")
        (set_last_about_th (revealed_about_th env st w)
          (set_last_about_en (Py.or_else (about_text st) "-")
            (set_last_th (revealed_th env st w)
              (set_last_en (word st) nxt))))) w'.
Proof.
  intros Hl Hg. unfold end_of_round. apply Z.leb_gt in Hl. rewrite Hl, Hg.
  destruct (capture_reveal_spec env st w) as [w1 ->].
  cbn [stage life set_last_about_th set_last_about_en set_last_th set_last_en].
  destruct (start_round env (stage st + 1) (life st) w1) as [nxt w'] eqn:E.
  exists nxt, w1, w'. split; [done|]. reflexivity.
Qed.

Lemma end_of_round_continue env G st w :
  0 < life st →
  all_guessed (word st) G = false →
  end_of_round env G st w = save_and_answer st w.
Proof.
  intros Hl Hg. unfold end_of_round. apply Z.leb_gt in Hl.
  by rewrite Hl, Hg.
Qed.

(** ** What a move does to the round *)

Lemma move_accepted env st cmd w :
  status st = Playing →
  accepted st cmd →
  handle env cmd (Some st) w =
  end_of_round env (guessed_after env st cmd w) (move_applied env st cmd w)
    (world_at_check cmd w).
Proof.
  intros Hs Ha. destruct cmd; try done; cbn [handle move_applied world_at_check].
  - destruct Ha as [Hv Hf]. by apply api_guess_accepted.
  - by apply api_hint_letter_accepted.
Qed.

Lemma move_rejected env st cmd w :
  is_move cmd →
  status st ≠ Playing ∨ ¬ accepted st cmd →
  ∃ st',
    handle env cmd (Some st) w = (Some st', RespState (public_state st'), w)
    ∧ same_but_message st st'.
Proof.
  intros Hm Hr. destruct cmd; try done; cbn [handle].
  - destruct (decide (status st = Playing)) as [Hs|Hs].
    + destruct Hr as [Hr|Hr]; [done|]. cbn [accepted] in Hr.
      destruct (decide (guess_valid guess)) as [Hv|Hv].
      * rewrite api_guess_repeated by tauto.
        eexists; split; [reflexivity|]. reflexivity.
      * rewrite api_guess_invalid by done.
        eexists; split; [reflexivity|]. reflexivity.
    + rewrite api_guess_not_playing by done. by exists st.
  - destruct (decide (status st = Playing)) as [Hs|Hs].
    + destruct Hr as [Hr|Hr]; [done|]. cbn [accepted] in Hr.
      destruct (decide (HINT_LETTER_MAX ≤ hint_letters_used st)) as [Hu|Hu].
      * rewrite api_hint_letter_exhausted by done.
        eexists; split; [reflexivity|]. reflexivity.
      * assert (remaining_letters st = []) as Hrem.
        { destruct (remaining_letters st) eqn:E; [done|].
          exfalso. apply Hr. split; [lia | done]. }
        rewrite api_hint_letter_nothing_left by (done || lia).
        eexists; split; [reflexivity|]. reflexivity.
    + rewrite api_hint_letter_not_playing by done. by exists st.
Qed.

Lemma move_applied_life env st cmd w :
  accepted st cmd →
  life (move_applied env st cmd w) = life st + life_delta st cmd.
Proof.
  intros Ha. destruct cmd; cbn [accepted] in Ha; try tauto;
    cbn [move_applied life_delta].
  unfold guess_applied. by destruct (bool_decide _).
Qed.

Lemma move_applied_static env st cmd w :
  let st1 := move_applied env st cmd w in
  stage st1 = stage st ∧ word st1 = word st ∧ status st1 = status st ∧
  about_text st1 = about_text st ∧ img st1 = img st ∧
  last_reveal st1 = last_reveal st.
Proof.
  destruct cmd; cbn [move_applied]; try done.
  unfold guess_applied. by destruct (bool_decide _).
Qed.

Lemma revealed_th_ext env st st1 w :
  word st1 = word st → revealed_th env st1 w = revealed_th env st w.
Proof. intros H. unfold revealed_th. by rewrite H. Qed.

Lemma revealed_about_th_ext env st st1 w :
  word st1 = word st → about_text st1 = about_text st →
  revealed_about_th env st1 w = revealed_about_th env st w.
Proof. intros H1 H2. unfold revealed_about_th. by rewrite H1, H2. Qed.

(** The outcome of an accepted move, in the three cases of the
    end-of-round check. *)
Lemma move_outcome env st cmd w :
  status st = Playing →
  accepted st cmd →
  let st1 := move_applied env st cmd w in
  let w1 := world_at_check cmd w in
  ∃ st' w',
    handle env cmd (Some st) w = (Some st', RespState (public_state st'), w')
    ∧ (life st + life_delta st cmd ≤ 0 →
       st' = set_message ("💀 GAME OVER! Word: " +:+ word st
                          +:+ " | ไทย: " +:+ revealed_th env st w1)
               (set_last_about_th (revealed_about_th env st w1)
                 (set_last_about_en (Py.or_else (about_text st) "-")
                   (set_last_th (revealed_th env st w1)
                     (set_last_en (word st) (set_status Failed st1))))))
    ∧ (0 < life st + life_delta st cmd →
       all_guessed (word st) (guessed_after env st cmd w) = true →
       ∃ nxt w2,
         start_round env (stage st + 1) (life st + life_delta st cmd) w2
         = (nxt, w') ∧
         st' = set_message ("🎉 CLEAR! " +:+ word st +:+ " | ไทย: "
                            +:+ revealed_th env st w1 +:+ " → Next word!")
                 (set_last_about_th (revealed_about_th env st w1)
                   (set_last_about_en (Py.or_else (about_text st) "-")
                     (set_last_th (revealed_th env st w1)
                       (set_last_en (word st) nxt)))))
    ∧ (0 < life st + life_delta st cmd →
       all_guessed (word st) (guessed_after env st cmd w) = false →
       st' = st1 ∧ w' = w1).
Proof.
  intros Hs Ha st1 w1.
  rewrite (move_accepted _ _ _ _ Hs Ha). fold st1 w1.
  pose proof (move_applied_life env st cmd w Ha) as Hl. fold st1 in Hl.
  destruct (move_applied_static env st cmd w)
    as (Hstage & Hword & _ & Habout & _). fold st1 in Hstage, Hword, Habout.
  rewrite <- Hl, <- Hword.
  rewrite <- (revealed_th_ext env st st1 w1 Hword).
  rewrite <- (revealed_about_th_ext env st st1 w1 Hword Habout).
  rewrite <- Habout, <- Hstage.
  set (G := guessed_after env st cmd w).
  destruct (decide (life st1 ≤ 0)) as [Hf|Hf].
  - destruct (end_of_round_fail env G st1 w1 Hf) as [w' ->].
    eexists _, w'. split; [reflexivity|].
    split; [done|]. split; intros; lia.
  - destruct (all_guessed (word st1) G) eqn:Hg.
    + destruct (end_of_round_clear env G st1 w1) as (nxt & w2 & w' & Hn & ->);
        [lia | done |].
      eexists _, w'. split; [reflexivity|].
      split; [intros; lia|]. split; [|done].
      intros _ _. by exists nxt, w2.
    + rewrite end_of_round_continue by (done || lia).
      eexists _, w1. split; [reflexivity|].
      split; [intros; lia|]. split; done.
Qed.

Lemma move_applied_hints env st cmd w :
  accepted st cmd →
  hint_letters_used st ≤ hint_letters_used (move_applied env st cmd w)
  ∧ hint_letters_used (move_applied env st cmd w)
    ≤ Z.max (hint_letters_used st) HINT_LETTER_MAX.
Proof.
  intros Ha. destruct cmd; cbn [accepted] in Ha; try tauto;
    cbn [move_applied].
  - unfold guess_applied. destruct (bool_decide _); cbn; lia.
  - unfold hint_applied. cbn. lia.
Qed.

Lemma same_but_message_fields st st' :
  same_but_message st st' →
  stage st' = stage st ∧ life st' = life st ∧ word st' = word st ∧
  guessed st' = guessed st ∧ wrong st' = wrong st ∧
  hint_letters_used st' = hint_letters_used st ∧ status st' = status st ∧
  img st' = img st ∧ last_reveal st' = last_reveal st.
Proof.
  unfold same_but_message, set_message, last_reveal. intros H.
  by injection H as -> -> -> -> _ _ -> -> -> -> -> -> -> ->.
Qed.

(** ** The invariant of the reachable session entries *)

Lemma move_invariant env cmd st w st' resp w' :
  is_move cmd →
  round_invariant st →
  handle env cmd (Some st) w = (Some st', resp, w') →
  round_invariant st'.
Proof.
  intros Hm [Hfail Hused] Hh.
  destruct (decide (status st = Playing ∧ accepted st cmd)) as [[Hs Ha]|Hn].
  - destruct (move_outcome env st cmd w Hs Ha)
      as (st2 & w2 & Heq & Hf & Hc & Hk).
    rewrite Heq in Hh. injection Hh as <- _ _.
    pose proof (move_applied_life env st cmd w Ha) as Hl.
    pose proof (move_applied_hints env st cmd w Ha) as Hh.
    destruct (move_applied_static env st cmd w) as (_ & _ & Hst & _).
    destruct (decide (life st + life_delta st cmd ≤ 0)) as [Hle|Hgt].
    + rewrite (Hf Hle). unfold round_invariant. cbn. split; [|lia].
      split; [lia | done].
    + destruct (all_guessed (word st) (guessed_after env st cmd w)) eqn:Hg.
      * destruct Hc as (nxt & w3 & Hn & ->); [lia | done |].
        destruct (start_round_spec env (stage st + 1)
                    (life st + life_delta st cmd) w3) as (wd & info & w4 & E).
        rewrite E in Hn. injection Hn as <- _.
        unfold round_invariant, HINT_LETTER_MAX. cbn. split; [|lia].
        split; [done | lia].
      * destruct Hk as [-> _]; [lia | done |].
        unfold round_invariant. rewrite Hl, Hst, Hs. split; [|lia].
        split; [done | lia].
  - destruct (move_rejected env st cmd w Hm) as (st2 & Heq & Hsame).
    { destruct (decide (status st = Playing)); [right | left]; tauto. }
    rewrite Heq in Hh. injection Hh as <- _ _.
    destruct (same_but_message_fields _ _ Hsame)
      as (_ & Hl & _ & _ & _ & Hu & Hst & _).
    unfold round_invariant. by rewrite Hl, Hu, Hst.
Qed.

Lemma handle_invariant env cmd sess w sess' resp w' :
  (∀ st, sess = Some st → round_invariant st) →
  handle env cmd sess w = (sess', resp, w') →
  ∀ st', sess' = Some st' → round_invariant st'.
Proof.
  intros Hinv Hh st' ->.
  destruct sess as [st|].
  - destruct cmd.
    + cbn in Hh. injection Hh as <- _ _. by apply Hinv.
    + cbn in Hh. by injection Hh.
    + cbn [handle] in Hh. unfold api_start in Hh.
      destruct (start_round_spec env 1 START_LIFE w) as (wd & info & w1 & E).
      rewrite E in Hh. injection Hh as <- _ _.
      unfold round_invariant, HINT_LETTER_MAX, START_LIFE. cbn.
      split; [split; [done | lia] | lia].
    + eapply (move_invariant env (CmdGuess guess)); [done | by apply Hinv | done].
    + eapply (move_invariant env CmdHint); [done | by apply Hinv | done].
  - destruct cmd; cbn in Hh; try by injection Hh.
    unfold api_start in Hh.
    destruct (start_round_spec env 1 START_LIFE w) as (wd & info & w1 & E).
    rewrite E in Hh. injection Hh as <- _ _.
    unfold round_invariant, HINT_LETTER_MAX, START_LIFE. cbn.
    split; [split; [done | lia] | lia].
Qed.

Lemma reachable_invariant env sess w :
  reachable env sess w → ∀ st, sess = Some st → round_invariant st.
Proof.
  induction 1 as [|cmd sess w sess' resp w' _ IH Hh]; [done|].
  by eapply handle_invariant.
Qed.

(** ** The caches only grow *)

Lemma world_extends_refl w : world_extends w w.
Proof. repeat split; try done. by exists []. Qed.

Lemma world_extends_trans w1 w2 w3 :
  world_extends w1 w2 → world_extends w2 w3 → world_extends w1 w3.
Proof.
  intros (Ht1 & Hw1 & new1 & Hn1) (Ht2 & Hw2 & new2 & Hn2).
  repeat split; [naive_solver | naive_solver |].
  exists (new2 ++ new1)%list. by rewrite Hn2, Hn1, <- app_assoc.
Qed.

Lemma log_request_extends r w : world_extends w (log_request r w).
Proof. repeat split; try done. by exists [r]. Qed.

Lemma store_translation_extends key th w :
  TRANSLATE_CACHE w !! key = None →
  world_extends w (store_translation key th w).
Proof.
  intros Hk. repeat split; cbn; [|done|by exists []].
  intros k v Hv. rewrite lookup_insert_ne; [done | congruence].
Qed.

Lemma store_summary_extends key out w :
  WIKI_CACHE w !! key = None →
  world_extends w (store_summary key out w).
Proof.
  intros Hk. repeat split; cbn; [done| |by exists []].
  intros k v Hv. rewrite lookup_insert_ne; [done | congruence].
Qed.

Lemma translate_fallback_extends env text key w :
  TRANSLATE_CACHE w !! key = None →
  world_extends w (snd (translate_fallback env text key w)).
Proof.
  intros Hk. unfold translate_fallback.
  destruct (mymemory_translatedText _ _ _) as [r|]; cbn [snd];
    [destruct (Py.truthy _)|]; try apply log_request_extends.
  eapply world_extends_trans; [apply log_request_extends|].
  by apply store_translation_extends.
Qed.

Lemma translate_to_th_extends env text w :
  world_extends w (snd (translate_to_th env text w)).
Proof.
  unfold translate_to_th.
  destruct (negb _); [apply world_extends_refl|].
  destruct (TRANSLATE_CACHE w !! _) eqn:Hk; [apply world_extends_refl|].
  destruct (HAS_TRANSLATE_LIB env);
    [|by apply translate_fallback_extends].
  destruct (translator_translate _ _ _) as [r|].
  - cbn [snd]. destruct (Py.truthy _); [|apply log_request_extends].
    eapply world_extends_trans; [apply log_request_extends|].
    by apply store_translation_extends.
  - eapply world_extends_trans; [apply log_request_extends|].
    by apply translate_fallback_extends.
Qed.

Lemma wikipedia_summary_extends env title w :
  world_extends w (snd (wikipedia_summary env title w)).
Proof.
  unfold wikipedia_summary.
  destruct (negb _); [apply world_extends_refl|].
  destruct (WIKI_CACHE w !! _) eqn:Hk; [apply world_extends_refl|].
  destruct (wikipedia_page _ _ _) as [data|]; cbn [snd];
    (eapply world_extends_trans; [apply log_request_extends|]);
    by apply store_summary_extends.
Qed.

Lemma start_round_extends env s l w :
  world_extends w (snd (start_round env s l w)).
Proof.
  unfold start_round, pick_word, random_choice.
  destruct (wikipedia_summary env _ _) as [info w2] eqn:E. cbn [snd].
  eapply world_extends_trans; [apply log_request_extends|].
  replace w2 with (snd (wikipedia_summary env
    (nth (random_draw env (now w) mod S (length (ANIMALS_rest env)))%nat
       (ANIMALS_first env :: ANIMALS_rest env) (ANIMALS_first env))
    (log_request ReqRandom w))) by by rewrite E.
  apply wikipedia_summary_extends.
Qed.

Lemma capture_reveal_extends env st w :
  world_extends w (snd (capture_reveal env st w)).
Proof.
  unfold capture_reveal.
  pose proof (translate_to_th_extends env (word st) w) as H1.
  destruct (translate_to_th env (word st) w) as [th w1]. cbn [snd] in H1.
  destruct (Py.truthy _); [|done].
  pose proof (translate_to_th_extends env (about_text st) w1) as H2.
  destruct (translate_to_th env (about_text st) w1) as [tha w2].
  cbn [snd] in *. by eapply world_extends_trans.
Qed.

Lemma end_of_round_extends env G st w :
  world_extends w (snd (end_of_round env G st w)).
Proof.
  unfold end_of_round, save_and_answer.
  destruct (life st <=? 0).
  - pose proof (capture_reveal_extends env (set_status Failed st) w) as H1.
    by destruct (capture_reveal _ _ _) as [st1 w1].
  - destruct (all_guessed _ _); [|apply world_extends_refl].
    pose proof (capture_reveal_extends env st w) as H1.
    destruct (capture_reveal _ _ _) as [st1 w1]. cbn [snd] in H1.
    pose proof (start_round_extends env (stage st1 + 1) (life st1) w1) as H2.
    destruct (start_round _ _ _ _) as [nxt w2]. cbn [snd] in *.
    by eapply world_extends_trans.
Qed.

Lemma handle_extends env cmd sess w :
  world_extends w (snd (handle env cmd sess w)).
Proof.
  destruct cmd; cbn [handle].
  - destruct sess; apply world_extends_refl.
  - apply world_extends_refl.
  - unfold api_start, save_and_answer.
    pose proof (start_round_extends env 1 START_LIFE w) as H.
    by destruct (start_round _ _ _ _).
  - destruct sess as [st|]; [|apply world_extends_refl].
    destruct (decide (status st = Playing ∧ accepted st (CmdGuess guess)))
      as [[Hs Ha]|Hn].
    + change (api_guess env guess (Some st) w)
        with (handle env (CmdGuess guess) (Some st) w).
      rewrite move_accepted by done. apply end_of_round_extends.
    + destruct (move_rejected env st (CmdGuess guess) w) as (st' & Heq & _);
        [done | |].
      { destruct (decide (status st = Playing)); [right | left]; tauto. }
      cbn [handle] in Heq. rewrite Heq. apply world_extends_refl.
  - destruct sess as [st|]; [|apply world_extends_refl].
    destruct (decide (status st = Playing ∧ accepted st CmdHint))
      as [[Hs Ha]|Hn].
    + change (api_hint_letter env (Some st) w)
        with (handle env CmdHint (Some st) w).
      rewrite move_accepted by done.
      eapply world_extends_trans; [apply log_request_extends|].
      apply end_of_round_extends.
    + destruct (move_rejected env st CmdHint w) as (st' & Heq & _);
        [done | |].
      { destruct (decide (status st = Playing)); [right | left]; tauto. }
      cbn [handle] in Heq. rewrite Heq. apply world_extends_refl.
Qed.

Lemma run_extends env cmds sess w :
  world_extends w (snd (run env cmds sess w)).
Proof.
  revert sess w. induction cmds as [|cmd cmds IH]; intros sess w;
    [apply world_extends_refl|].
  cbn [run]. pose proof (handle_extends env cmd sess w) as H.
  destruct (handle env cmd sess w) as [[sess' resp] w']. cbn [snd] in H.
  eapply world_extends_trans; [exact H | apply IH].
Qed.

(** ** Outcomes of a move that ends the round *)

Lemma move_life env st cmd w :
  status st = Playing →
  accepted st cmd →
  ∃ st' w',
    handle env cmd (Some st) w = (Some st', RespState (public_state st'), w')
    ∧ life st' = life st + life_delta st cmd.
Proof.
  intros Hs Ha.
  destruct (move_outcome env st cmd w Hs Ha) as (st' & w' & Heq & Hf & Hc & Hk).
  exists st', w'. split; [done|].
  destruct (decide (life st + life_delta st cmd ≤ 0)) as [Hle|Hgt].
  - rewrite (Hf Hle). cbn. by apply move_applied_life.
  - destruct (all_guessed (word st) (guessed_after env st cmd w)) eqn:Hg.
    + destruct Hc as (nxt & w3 & Hn & ->); [lia | done |].
      destruct (start_round_spec env (stage st + 1)
                  (life st + life_delta st cmd) w3) as (wd & info & w4 & E).
      rewrite E in Hn. by injection Hn as <- _.
    + destruct Hk as [-> _]; [lia | done |]. by apply move_applied_life.
Qed.

Lemma move_fails env st cmd w :
  status st = Playing →
  accepted st cmd →
  life st + life_delta st cmd ≤ 0 →
  ∃ st' w',
    handle env cmd (Some st) w = (Some st', RespState (public_state st'), w')
    ∧ status st' = Failed
    ∧ life st' = life st + life_delta st cmd
    ∧ stage st' = stage st
    ∧ word st' = word st
    ∧ last_reveal st' =
      (word st, revealed_th env st (world_at_check cmd w),
       Py.or_else (about_text st) "-",
       revealed_about_th env st (world_at_check cmd w)).
Proof.
  intros Hs Ha Hle.
  destruct (move_outcome env st cmd w Hs Ha) as (st' & w' & Heq & Hf & _).
  exists st', w'. split; [done|]. rewrite (Hf Hle).
  destruct (move_applied_static env st cmd w) as (Hstage & Hword & _).
  cbn. rewrite Hstage, Hword. repeat split; try done.
  by apply move_applied_life.
Qed.

Lemma move_clears env st cmd w :
  status st = Playing →
  accepted st cmd →
  0 < life st + life_delta st cmd →
  all_guessed (word st) (guessed_after env st cmd w) = true →
  ∃ st' w',
    handle env cmd (Some st) w = (Some st', RespState (public_state st'), w')
    ∧ stage st' = stage st + 1
    ∧ life st' = life st + life_delta st cmd
    ∧ guessed st' = []
    ∧ wrong st' = []
    ∧ hint_letters_used st' = 0
    ∧ status st' = Playing
    ∧ last_reveal st' =
      (word st, revealed_th env st (world_at_check cmd w),
       Py.or_else (about_text st) "-",
       revealed_about_th env st (world_at_check cmd w)).
Proof.
  intros Hs Ha Hgt Hg.
  destruct (move_outcome env st cmd w Hs Ha) as (st' & w' & Heq & _ & Hc & _).
  exists st', w'. split; [done|].
  destruct (Hc Hgt Hg) as (nxt & w3 & Hn & ->).
  destruct (start_round_spec env (stage st + 1)
              (life st + life_delta st cmd) w3) as (wd & info & w4 & E).
  rewrite E in Hn. by injection Hn as <- _.
Qed.

(** ** Properties of the specification *)

(** C7. Once a state is failed, every later guess or hint leaves it as it
    is: the handler saves nothing, consults nothing and answers the
    projection of the very same state, for one command and for any number
    of them in a row. *)
Theorem C7_failed_is_terminal env st w cmd cmds :
  status st = Failed →
  is_move cmd →
  Forall is_move cmds →
  handle env cmd (Some st) w = (Some st, RespState (public_state st), w)
  ∧ run env cmds (Some st) w = (Some st, w).
Proof.
  intros Hs Hm Hall.
  assert (∀ c, is_move c →
    handle env c (Some st) w = (Some st, RespState (public_state st), w)) as H.
  { intros c Hc. destruct c; try done; cbn [handle].
    - apply api_guess_not_playing. by rewrite Hs.
    - apply api_hint_letter_not_playing. by rewrite Hs. }
  split; [by apply H|].
  induction Hall as [|c cs Hc _ IH]; [done|].
  cbn [run]. by rewrite (H c Hc).
Qed.

Lemma C7_failed_is_terminal_witness :
  let st := demo_round "dog" 0 [] ["x"%char] 0 Failed in
  handle demo_env (CmdGuess (Some "d")) (Some st) initial_world
  = (Some st, RespState (public_state st), initial_world)
  ∧ run demo_env [CmdGuess (Some "d"); CmdHint; CmdGuess None] (Some st)
      initial_world = (Some st, initial_world).
Proof.
  apply (C7_failed_is_terminal demo_env
           (demo_round "dog" 0 [] ["x"%char] 0 Failed) initial_world
           (CmdGuess (Some "d")) [CmdGuess (Some "d"); CmdHint; CmdGuess None]).
  - reflexivity.
  - exact I.
  - repeat constructor.
Defined.




(** ** The masked word *)

Lemma mask_word_cons c s G :
  mask_word (String c s) G =
  String (mask_cell G c)
    (match s with
     | EmptyString => EmptyString
     | String _ _ => String " " (mask_word s G)
     end).
Proof. destruct s; reflexivity. Qed.

Lemma mask_word_length s G :
  String.length (mask_word s G) = (2 * String.length s - 1)%nat.
Proof.
  induction s as [|c s IH]; [reflexivity|].
  rewrite mask_word_cons. destruct s as [|c' s']; [reflexivity|].
  cbn [String.length] in *. rewrite IH. lia.
Qed.

Lemma mask_word_cell s G i c :
  Py.chars s !! i = Some c →
  String.get (2 * i) (mask_word s G) = Some (mask_cell G c).
Proof.
  revert i. induction s as [|a s IH]; intros i Hi; [done|].
  rewrite mask_word_cons. destruct i as [|i].
  - cbn in Hi. injection Hi as ->. reflexivity.
  - change (Py.chars (String a s) !! S i) with (Py.chars s !! i) in Hi.
    destruct s as [|a' s']; [done|].
    replace (2 * S i)%nat with (S (S (2 * i))) by lia.
    cbn [String.get]. by apply IH.
Qed.

Lemma mask_word_separator s G i :
  (S i < String.length s)%nat →
  String.get (2 * i + 1) (mask_word s G) = Some " "%char.
Proof.
  revert i. induction s as [|a s IH]; intros i Hi; [cbn in Hi; lia|].
  rewrite mask_word_cons. destruct s as [|a' s']; [cbn in Hi; lia|].
  destruct i as [|i]; [reflexivity|].
  replace (2 * S i + 1)%nat with (S (S (2 * i + 1))) by lia.
  cbn [String.get]. apply IH. cbn [String.length] in *. lia.
Qed.




(** C4, as the code has it.  The masked string holds one cell per letter
    of the word, with a single space between two cells: the cell of
    position i is character 2i of the string and shows the letter when it
    is in guessed and the placeholder "_" when it is not.  Its length is
    therefore 2 * length(word) - 1 for a word that is not empty (0 for the
    empty word); the length of the word is what the separate field
    "length" of the projection holds. *)
Theorem C4_masked_cells (wd : string) (G : gset ascii) st i c :
  Py.chars wd !! i = Some c →
  String.get (2 * i) (mask_word wd G)
  = Some (if decide (c ∈ G) then c else "_"%char)
  ∧ ((S i < String.length wd)%nat →
     String.get (2 * i + 1) (mask_word wd G) = Some " "%char)
  ∧ String.length (mask_word wd G) = (2 * String.length wd - 1)%nat
  ∧ p_length (public_state st) = String.length (word st).
Proof.
  intros Hi. split; [by apply mask_word_cell|].
  split; [apply mask_word_separator|].
  split; [apply mask_word_length | reflexivity].
Qed.

Lemma C4_masked_cells_witness :
  String.get 2 (mask_word "cat" {["a"%char]}) = Some "a"%char
  ∧ String.get 3 (mask_word "cat" {["a"%char]}) = Some " "%char
  ∧ String.length (mask_word "cat" {["a"%char]}) = 5%nat.
Proof.
  destruct (C4_masked_cells "cat" {["a"%char]}
              (demo_round "cat" 8 ["a"%char] [] 0 Playing) 1 "a"%char)
    as (H1 & H2 & H3 & _).
  - reflexivity.
  - split; [exact H1|]. split; [apply H2; vm_compute; lia | exact H3].
Defined.

(** C4, as stated, fails: the masked form of "cat" is "_ _ _", five
    characters long, while the word has three. *)
Lemma C4_counterexample :
  mask_word "cat" ∅ = "_ _ _"
  ∧ String.length (mask_word "cat" ∅) ≠ String.length "cat".
Proof. split; [reflexivity | vm_compute; lia]. Qed.

(** ** What the routes answer *)




Lemma reachable_run env cmds sess w :
  reachable env sess w →
  reachable env (fst (run env cmds sess w)) (snd (run env cmds sess w)).
Proof.
  revert sess w. induction cmds as [|cmd cmds IH]; intros sess w Hr; [done|].
  cbn [run]. destruct (handle env cmd sess w) as [[sess' resp] w'] eqn:E.
  apply IH. by eapply reachable_handle.
Qed.

(** C1. In every state the server can reach, the status is Failed exactly
    when life is zero or below.  And the failure check comes first: from
    any playing state, an accepted guess or hint that leaves life at zero
    or below yields a Failed state on the same word and stage, with the
    reveal captured from that word, whether or not the move also completed
    the word. *)
Theorem C1_failed_iff_life_exhausted env st w st0 cmd w0 :
  reachable env (Some st) w →
  status st0 = Playing →
  accepted st0 cmd →
  life (saved (handle env cmd (Some st0) w0) st0) ≤ 0 →
  (status st = Failed ↔ life st ≤ 0)
  ∧ ∃ st' w',
      handle env cmd (Some st0) w0
      = (Some st', RespState (public_state st'), w')
      ∧ status st' = Failed
      ∧ life st' ≤ 0
      ∧ stage st' = stage st0
      ∧ word st' = word st0
      ∧ last_reveal st' =
        (word st0, revealed_th env st0 (world_at_check cmd w0),
         Py.or_else (about_text st0) "-",
         revealed_about_th env st0 (world_at_check cmd w0)).
Proof.
  intros Hreach Hs Ha Hle. split.
  - by destruct (reachable_invariant env _ _ Hreach st eq_refl) as [H _].
  - destruct (move_life env st0 cmd w0 Hs Ha) as (st1 & w1 & Heq & Hl).
    rewrite Heq in Hle. cbn in Hle. rewrite Hl in Hle.
    destruct (move_fails env st0 cmd w0 Hs Ha Hle)
      as (st' & w' & Heq' & Hst & Hl' & Hstage & Hword & Hrev).
    exists st', w'. repeat split; try done. lia.
Qed.

Lemma C1_failed_iff_life_exhausted_witness :
  let st0 := demo_round "a" 2 [] [] 0 Playing in
  (status demo_lost = Failed ↔ life demo_lost ≤ 0)
  ∧ status demo_lost = Failed
  ∧ all_guessed (word st0) (guessed_after demo_env st0 CmdHint initial_world)
    = true
  ∧ ∃ st' w',
      handle demo_env CmdHint (Some st0) initial_world
      = (Some st', RespState (public_state st'), w')
      ∧ status st' = Failed ∧ last_en st' = "a".
Proof.
  cbn zeta.
  destruct (C1_failed_iff_life_exhausted demo_env demo_lost
    (snd (run demo_env demo_wrong_guesses None initial_world))
    (demo_round "a" 2 [] [] 0 Playing) CmdHint initial_world)
    as (Hiff & st' & w' & Heq & Hst & _ & _ & _ & Hrev).
  - replace (Some demo_lost)
      with (fst (run demo_env demo_wrong_guesses None initial_world))
      by (vm_compute; reflexivity).
    apply reachable_run, reachable_initial.
  - reflexivity.
  - split; [vm_compute; reflexivity | vm_compute; discriminate].
  - vm_compute. discriminate.
  - split; [exact Hiff|]. split; [vm_compute; reflexivity|].
    split; [vm_compute; reflexivity|].
    exists st', w'. split; [exact Heq|]. split; [exact Hst|].
    exact (f_equal (fun r => fst (fst (fst r))) Hrev).
Defined.

(** C2. From every playing state, a fresh valid letter guess changes life
    by exactly +2 when the letter occurs in the word and by exactly -1
    when it does not, and an accepted hint changes it by exactly -2,
    whatever the life was and whatever the life becomes: the state saved
    and shown carries that life also when the move fails or clears the
    round. *)
Theorem C2_life_deltas env st cmd w :
  status st = Playing →
  accepted st cmd →
  ∃ st' w',
    handle env cmd (Some st) w = (Some st', RespState (public_state st'), w')
    ∧ p_life (public_state st') = life st'
    ∧ life st' =
      match cmd with
      | CmdGuess guess =>
          if bool_decide (guess_letter guess ∈ Py.chars (word st))
          then life st + 2 else life st - 1
      | _ => life st - 2
      end.
Proof.
  intros Hs Ha.
  destruct (move_life env st cmd w Hs Ha) as (st' & w' & Heq & Hl).
  exists st', w'. split; [done|]. split; [done|]. rewrite Hl.
  destruct cmd; cbn [accepted] in Ha; try tauto; cbn [life_delta].
  by destruct (bool_decide _).
Qed.

Lemma C2_life_deltas_witness :
  ∃ st1 st2 st3 w1 w2 w3,
    handle demo_env (CmdGuess (Some "C"))
      (Some (demo_round "cat" 8 [] [] 0 Playing)) initial_world
    = (Some st1, RespState (public_state st1), w1) ∧ life st1 = 10
    ∧ handle demo_env (CmdGuess (Some "x"))
        (Some (demo_round "dog" 1 [] [] 0 Playing)) initial_world
      = (Some st2, RespState (public_state st2), w2) ∧ life st2 = 0
    ∧ handle demo_env CmdHint
        (Some (demo_round "owl" 1 [] [] 0 Playing)) initial_world
      = (Some st3, RespState (public_state st3), w3) ∧ life st3 = -1.
Proof.
  destruct (C2_life_deltas demo_env (demo_round "cat" 8 [] [] 0 Playing)
              (CmdGuess (Some "C")) initial_world)
    as (st1 & w1 & H1 & _ & L1);
    [reflexivity | vm_compute; repeat split; intros H;
       apply list_elem_of_In in H; destruct H |].
  destruct (C2_life_deltas demo_env (demo_round "dog" 1 [] [] 0 Playing)
              (CmdGuess (Some "x")) initial_world)
    as (st2 & w2 & H2 & _ & L2);
    [reflexivity | vm_compute; repeat split; intros H;
       apply list_elem_of_In in H; destruct H |].
  destruct (C2_life_deltas demo_env (demo_round "owl" 1 [] [] 0 Playing)
              CmdHint initial_world)
    as (st3 & w3 & H3 & _ & L3);
    [reflexivity | split; [reflexivity | vm_compute; discriminate] |].
  exists st1, st2, st3, w1, w2, w3.
  repeat split; assumption.
Defined.

(** C3. From every playing state, an accepted guess or hint after which
    every letter of the word is guessed while life is above zero saves,
    and shows, a fresh round: the stage is the old one plus exactly 1, life
    is the life at the clearing moment, guessed and wrong are empty, no
    hint is used, the status is Playing, and the four reveal fields are
    those captured from the word just cleared. *)
Theorem C3_clear_starts_next_round env st cmd w :
  status st = Playing →
  accepted st cmd →
  all_guessed (word st) (guessed_after env st cmd w) = true →
  0 < life (move_applied env st cmd w) →
  ∃ st' w',
    handle env cmd (Some st) w = (Some st', RespState (public_state st'), w')
    ∧ stage st' = stage st + 1
    ∧ life st' = life (move_applied env st cmd w)
    ∧ guessed st' = []
    ∧ wrong st' = []
    ∧ hint_letters_used st' = 0
    ∧ status st' = Playing
    ∧ last_en st' = word st
    ∧ last_th st' = revealed_th env st (world_at_check cmd w)
    ∧ last_about_en st' = Py.or_else (about_text st) "-"
    ∧ last_about_th st' = revealed_about_th env st (world_at_check cmd w).
Proof.
  intros Hs Ha Hg Hl. rewrite (move_applied_life env st cmd w Ha) in *.
  destruct (move_clears env st cmd w Hs Ha Hl Hg)
    as (st' & w' & Heq & H1 & H2 & H3 & H4 & H5 & H6 & Hrev).
  exists st', w'. unfold last_reveal in Hrev.
  injection Hrev as R1 R2 R3 R4. by repeat split.
Qed.

Lemma C3_clear_starts_next_round_witness :
  ∃ st' w',
    handle demo_env (CmdGuess (Some "t"))
      (Some (demo_round "cat" 9 ["a"; "c"]%char ["x"%char] 0 Playing))
      initial_world
    = (Some st', RespState (public_state st'), w')
    ∧ stage st' = 2 ∧ life st' = 11 ∧ guessed st' = [] ∧ wrong st' = []
    ∧ hint_letters_used st' = 0 ∧ status st' = Playing
    ∧ last_en st' = "cat".
Proof.
  destruct (C3_clear_starts_next_round demo_env
              (demo_round "cat" 9 ["a"; "c"]%char ["x"%char] 0 Playing)
              (CmdGuess (Some "t")) initial_world)
    as (st' & w' & Heq & H1 & H2 & H3 & H4 & H5 & H6 & H7 & _).
  - reflexivity.
  - vm_compute. repeat split; intros H; apply list_elem_of_In in H;
      repeat (destruct H as [H|H]; [discriminate H|]); destruct H.
  - vm_compute. reflexivity.
  - vm_compute. reflexivity.
  - exists st', w'. repeat split; assumption.
Defined.

(** ** The letter a hint reveals *)

Lemma elem_of_sorted x (S : gset ascii) : x ∈ Py.sorted S ↔ x ∈ S.
Proof.
  unfold Py.sorted. rewrite merge_sort_Permutation. apply elem_of_elements.
Qed.

Lemma list_to_set_sorted (S : gset ascii) : list_to_set (Py.sorted S) = S.
Proof.
  apply set_eq. intros x. by rewrite elem_of_list_to_set, elem_of_sorted.
Qed.

Lemma hint_reveal_remaining env st w :
  remaining_letters st ≠ [] →
  hint_reveal env st w ∈ remaining_letters st.
Proof.
  intros Hr. unfold hint_reveal.
  destruct (remaining_letters st) as [|r rs]; [done|].
  unfold random_choice. cbn [fst].
  apply nth_elem_of. cbn [length].
  apply Nat.mod_upper_bound. lia.
Qed.

Lemma remaining_letters_spec st c :
  c ∈ remaining_letters st ↔
  c ∈ Py.chars (word st) ∧ Py.isalpha_char c = true ∧ c ∉ guessed st.
Proof.
  unfold remaining_letters.
  rewrite elem_of_sorted, elem_of_list_to_set, list_elem_of_filter.
  rewrite elem_of_list_to_set. tauto.
Qed.

Lemma guessed_after_stored env st cmd w :
  accepted st cmd →
  list_to_set (guessed (move_applied env st cmd w))
  = guessed_after env st cmd w.
Proof.
  intros Ha. destruct cmd; cbn [accepted] in Ha; try tauto;
    cbn [move_applied guessed_after].
  - unfold guess_applied. destruct (bool_decide _); cbn [guessed set_life
      set_wrong set_guessed set_message]; apply list_to_set_sorted.
  - unfold hint_applied. cbn [guessed set_life set_hint_letters_used
      set_guessed set_message]. apply list_to_set_sorted.
Qed.

(** C5. In every reachable state the hint count is at most 2.  From a
    playing state, a hint asked when the count is 2 or more changes the
    message only (life, guessed and the count are as before, nothing is
    looked up).  An accepted hint reveals one letter that occurs in the
    word and is not in guessed, and updates the state by exactly that
    letter added to guessed, the count plus 1 and life minus 2; the
    end-of-round check then runs on the updated state, so that the state
    saved has life minus 2 and, unless the hint cleared the word and a
    fresh round replaced it, exactly the updated guessed and count. *)
Theorem C5_hint_limit_and_effect env st w st0 w0 :
  reachable env (Some st) w →
  status st0 = Playing →
  let reveal := hint_reveal env st0 w0 in
  let st1 := hint_applied st0 reveal in
  hint_letters_used st ≤ 2
  ∧ (HINT_LETTER_MAX ≤ hint_letters_used st0 →
     ∃ msg,
       api_hint_letter env (Some st0) w0 =
       (Some (set_message msg st0),
        RespState (public_state (set_message msg st0)), w0)
       ∧ life (set_message msg st0) = life st0
       ∧ guessed (set_message msg st0) = guessed st0
       ∧ hint_letters_used (set_message msg st0) = hint_letters_used st0)
  ∧ (accepted st0 CmdHint →
     reveal ∈ Py.chars (word st0)
     ∧ (reveal ∉ guessed st0)
     ∧ (∀ x, x ∈ guessed st1 ↔ x ∈ guessed st0 ∨ x = reveal)
     ∧ hint_letters_used st1 = hint_letters_used st0 + 1
     ∧ hint_letters_used st1 ≤ Z.max 2 (hint_letters_used st0)
     ∧ life st1 = life st0 - 2
     ∧ api_hint_letter env (Some st0) w0 =
       end_of_round env (list_to_set (guessed st1)) st1
         (log_request ReqRandom w0)
     ∧ ∃ st' w',
         api_hint_letter env (Some st0) w0
         = (Some st', RespState (public_state st'), w')
         ∧ life st' = life st0 - 2
         ∧ (¬ (0 < life st0 - 2
               ∧ all_guessed (word st0) (list_to_set (guessed st1)) = true) →
            guessed st' = guessed st1
            ∧ hint_letters_used st' = hint_letters_used st0 + 1
            ∧ word st' = word st0 ∧ stage st' = stage st0)).
Proof.
  intros Hreach Hs reveal st1. split; [|split].
  - destruct (reachable_invariant env _ _ Hreach st eq_refl) as [_ H].
    unfold HINT_LETTER_MAX in H. lia.
  - intros Hu. exists "Hint letter limit reached (2 per word).".
    by rewrite api_hint_letter_exhausted.
  - intros Ha. pose proof Ha as [Hu Hr].
    pose proof (hint_reveal_remaining env st0 w0 Hr) as Hin.
    apply remaining_letters_spec in Hin as (Hw & _ & Hg). fold reveal in Hw, Hg.
    pose proof (guessed_after_stored env st0 CmdHint w0 Ha) as Hset.
    cbn [move_applied] in Hset. fold reveal st1 in Hset.
    split; [done|]. split; [done|]. split.
    { intros x. rewrite <- (elem_of_list_to_set (C:=gset ascii)), Hset.
      cbn [guessed_after]. fold reveal.
      rewrite elem_of_union, elem_of_singleton, elem_of_list_to_set. tauto. }
    split; [reflexivity|]. split; [unfold HINT_LETTER_MAX in Hu; cbn; lia|].
    split; [reflexivity|]. split.
    { rewrite Hset. by apply api_hint_letter_accepted. }
    destruct (move_outcome env st0 CmdHint w0 Hs Ha)
      as (st' & w' & Heq & Hf & Hc & Hk).
    destruct (move_life env st0 CmdHint w0 Hs Ha) as (st2 & w2 & Heq2 & Hl).
    rewrite Heq in Heq2. assert (st2 = st') as -> by congruence.
    exists st', w'. split; [exact Heq|]. split; [exact Hl|].
    intros Hnc. rewrite Hset in Hnc. cbn [life_delta] in *.
    destruct (decide (life st0 + -2 ≤ 0)) as [Hle|Hgt].
    + rewrite (Hf Hle). cbn [move_applied]. fold reveal st1. done.
    + destruct (all_guessed (word st0) (guessed_after env st0 CmdHint w0))
        eqn:Hall; [exfalso; apply Hnc; split; [lia | done]|].
      destruct Hk as [-> _]; [lia | done |].
      cbn [move_applied]. fold reveal st1. done.
Qed.

Lemma C5_hint_limit_and_effect_witness :
  hint_letters_used demo_lost ≤ 2
  ∧ hint_reveal demo_env (demo_round "owl" 8 [] [] 0 Playing) initial_world
    = "l"%char
  ∧ api_hint_letter demo_env (Some (demo_round "owl" 8 [] [] 0 Playing))
      initial_world
    = end_of_round demo_env
        (list_to_set (guessed (hint_applied
           (demo_round "owl" 8 [] [] 0 Playing) "l"%char)))
        (hint_applied (demo_round "owl" 8 [] [] 0 Playing) "l"%char)
        (log_request ReqRandom initial_world).
Proof.
  destruct (C5_hint_limit_and_effect demo_env demo_lost
    (snd (run demo_env demo_wrong_guesses None initial_world))
    (demo_round "owl" 8 [] [] 0 Playing) initial_world) as (H1 & _ & H3).
  - replace (Some demo_lost)
      with (fst (run demo_env demo_wrong_guesses None initial_world))
      by (vm_compute; reflexivity).
    apply reachable_run, reachable_initial.
  - reflexivity.
  - split; [exact H1|]. split; [vm_compute; reflexivity|].
    destruct H3 as (_ & _ & _ & _ & _ & _ & H & _).
    + split; [reflexivity | vm_compute; discriminate].
    + exact H.
Defined.

(** C10. Whenever an accepted guess or hint ends the round, by failure or
    by clearing the word, the translated word kept as the reveal is the
    result of [translate_to_th] on the word when that result is not empty
    and "-" otherwise, so it is never empty; the translated about text is
    "-" only when the about text is empty and is otherwise whatever
    [translate_to_th] returns for the about text, so it is empty exactly
    when the about text is not empty and its translation comes back
    empty. *)
Theorem C10_reveal_fallbacks env st cmd w :
  status st = Playing →
  accepted st cmd →
  life (move_applied env st cmd w) ≤ 0
  ∨ all_guessed (word st) (guessed_after env st cmd w) = true →
  let w1 := world_at_check cmd w in
  let th := fst (translate_to_th env (word st) w1) in
  let about := about_text st in
  let tha :=
    fst (translate_to_th env about (snd (translate_to_th env (word st) w1))) in
  ∃ st' w',
    handle env cmd (Some st) w = (Some st', RespState (public_state st'), w')
    ∧ last_th st' ≠ ""
    ∧ last_th st' = (if Py.truthy th then th else "-")
    ∧ last_about_th st' = (if Py.truthy about then tha else "-")
    ∧ (last_about_th st' = "" ↔ about ≠ "" ∧ tha = "").
Proof.
  intros Hs Ha Hend w1 th about tha.
  rewrite (move_applied_life env st cmd w Ha) in Hend.
  assert (∃ st' w',
    handle env cmd (Some st) w = (Some st', RespState (public_state st'), w')
    ∧ last_reveal st' =
      (word st, revealed_th env st w1, Py.or_else about "-",
       revealed_about_th env st w1)) as (st' & w' & Heq & Hrev).
  { destruct (decide (life st + life_delta st cmd ≤ 0)) as [Hle|Hgt].
    - destruct (move_fails env st cmd w Hs Ha Hle)
        as (st' & w' & Heq & _ & _ & _ & _ & Hrev). by exists st', w'.
    - destruct Hend as [Hle|Hg]; [done|].
      destruct (move_clears env st cmd w Hs Ha) as
        (st' & w' & Heq & _ & _ & _ & _ & _ & _ & Hrev); [lia | done |].
      by exists st', w'. }
  exists st', w'. split; [exact Heq|].
  unfold last_reveal in Hrev. injection Hrev as _ -> _ ->.
  unfold revealed_th, revealed_about_th, Py.or_else.
  fold w1. fold th. fold about. fold tha.
  split; [by destruct th|]. split; [done|]. split; [done|].
  destruct about; cbn [Py.truthy]; [split; [done | tauto]|].
  split; [done | tauto].
Qed.

Lemma C10_reveal_fallbacks_witness :
  ∃ st' w',
    handle demo_env (CmdGuess (Some "x"))
      (Some (demo_round "dog" 1 [] [] 0 Playing)) initial_world
    = (Some st', RespState (public_state st'), w')
    ∧ last_th st' = "-"
    ∧ last_about_en st' = "Animal called dog"
    ∧ last_about_th st' = "".
Proof.
  destruct (C10_reveal_fallbacks demo_env (demo_round "dog" 1 [] [] 0 Playing)
              (CmdGuess (Some "x")) initial_world)
    as (st' & w' & Heq & _ & H1 & H2 & _).
  - reflexivity.
  - vm_compute. repeat split; intros H; apply list_elem_of_In in H; destruct H.
  - left. vm_compute. discriminate.
  - exists st', w'. split; [exact Heq|]. split; [exact H1|].
    split; [|exact H2].
    assert (Some st' = Some (saved (handle demo_env (CmdGuess (Some "x"))
              (Some (demo_round "dog" 1 [] [] 0 Playing)) initial_world)
              (demo_round "dog" 1 [] [] 0 Playing))) as E
      by (rewrite Heq; reflexivity).
    injection E as ->. vm_compute. reflexivity.
Defined.

(** ** Hits and misses of the two caches *)

Lemma truthy_lower s : Py.truthy (Py.lower s) = Py.truthy s.
Proof. by destruct s. Qed.

Lemma truthy_false s : Py.truthy s = false ↔ s = "".
Proof. by destruct s. Qed.

Lemma wikipedia_summary_hit env title w out :
  Py.truthy (Py.strip title) = true →
  WIKI_CACHE w !! Py.lower (Py.strip title) = Some out →
  wikipedia_summary env title w = (out, w).
Proof.
  intros Ht Hk. unfold wikipedia_summary. by rewrite Ht, Hk.
Qed.

Lemma wikipedia_summary_failure env title w :
  Py.truthy (Py.strip title) = true →
  WIKI_CACHE w !! Py.lower (Py.strip title) = None →
  wikipedia_page env (now w) (Py.strip title) = None →
  wikipedia_summary env title w =
  (empty_info,
   store_summary (Py.lower (Py.strip title)) empty_info
     (log_request (ReqWikipedia (Py.strip title)) w)).
Proof.
  intros Ht Hk Hp. unfold wikipedia_summary. by rewrite Ht, Hk, Hp.
Qed.

Lemma translate_to_th_hit env text w th :
  Py.truthy (Py.strip text) = true →
  TRANSLATE_CACHE w !! Py.lower (Py.strip text) = Some th →
  translate_to_th env text w = (th, w).
Proof.
  intros Ht Hk. unfold translate_to_th. by rewrite Ht, Hk.
Qed.

Lemma translate_fallback_miss env text key w :
  let th := fst (translate_fallback env text key w) in
  let w1 := snd (translate_fallback env text key w) in
  trace w1 = ReqMyMemory text :: trace w
  ∧ (th = "" → TRANSLATE_CACHE w1 = TRANSLATE_CACHE w)
  ∧ (th ≠ "" → TRANSLATE_CACHE w1 = <[key := th]> (TRANSLATE_CACHE w)).
Proof.
  unfold translate_fallback.
  destruct (mymemory_translatedText _ _ _) as [r|]; cbn [fst snd];
    [|by repeat split].
  destruct (Py.truthy (Py.strip r)) eqn:E.
  - repeat split; try done. intros H. rewrite H in E. discriminate E.
  - apply truthy_false in E. by repeat split.
Qed.

Lemma translate_to_th_miss env text w :
  Py.truthy (Py.strip text) = true →
  TRANSLATE_CACHE w !! Py.lower (Py.strip text) = None →
  let th := fst (translate_to_th env text w) in
  let w1 := snd (translate_to_th env text w) in
  (∃ new, new ≠ [] ∧ trace w1 = (new ++ trace w)%list
          ∧ Forall (translation_request (Py.strip text)) new)
  ∧ (th = "" → TRANSLATE_CACHE w1 = TRANSLATE_CACHE w)
  ∧ (th ≠ "" →
     TRANSLATE_CACHE w1 = <[Py.lower (Py.strip text) := th]> (TRANSLATE_CACHE w)).
Proof.
  intros Ht Hk. unfold translate_to_th. rewrite Ht, Hk. cbn [negb].
  set (t := Py.strip text). set (key := Py.lower t).
  destruct (HAS_TRANSLATE_LIB env).
  - destruct (translator_translate _ _ _) as [r|].
    + cbn [fst snd]. destruct (Py.truthy (Py.strip r)) eqn:E.
      * split; [|split; [intros H; rewrite H in E; discriminate E|done]].
        exists [ReqTranslator t]. repeat split; [done|].
        repeat constructor.
      * apply truthy_false in E. split; [|by split].
        exists [ReqTranslator t]. repeat split; [done|].
        repeat constructor.
    + destruct (translate_fallback_miss env t key
                  (log_request (ReqTranslator t) w)) as (H1 & H2 & H3).
      split; [|by split].
      exists [ReqMyMemory t; ReqTranslator t]. rewrite H1.
      repeat split; [done|]. repeat constructor; by right.
  - destruct (translate_fallback_miss env t key w) as (H1 & H2 & H3).
    split; [|by split].
    exists [ReqMyMemory t]. rewrite H1.
    repeat split; [done|]. repeat constructor; by right.
Qed.

(** C8. The two caches treat a failure differently.  A summary fetch that
    fails is stored as the all-empty record, and from then on, whatever
    commands are handled in between, a summary call for the same key
    answers that record without consulting Wikipedia.  A translation miss
    consults a service; when it yields nothing the cache is left as it
    was, so the next call for that key consults a service again; when it
    yields a text, that text is stored and every later call for the key,
    whatever is handled in between, answers it without consulting anything
    and without writing the cache. *)
Theorem C8_cache_asymmetry env w text text' cmds sess :
  Py.truthy (Py.strip text) = true →
  Py.lower (Py.strip text') = Py.lower (Py.strip text) →
  WIKI_CACHE w !! Py.lower (Py.strip text) = None →
  TRANSLATE_CACHE w !! Py.lower (Py.strip text) = None →
  (wikipedia_page env (now w) (Py.strip text) = None →
   let w1 := snd (wikipedia_summary env text w) in
   let w2 := snd (run env cmds sess w1) in
   fst (wikipedia_summary env text w) = empty_info
   ∧ WIKI_CACHE w1 !! Py.lower (Py.strip text) = Some empty_info
   ∧ wikipedia_summary env text' w2 = (empty_info, w2))
  ∧ (let th := fst (translate_to_th env text w) in
     let w1 := snd (translate_to_th env text w) in
     let w2 := snd (run env cmds sess w1) in
     (∃ new, new ≠ [] ∧ trace w1 = (new ++ trace w)%list
             ∧ Forall (translation_request (Py.strip text)) new)
     ∧ (th = "" →
        TRANSLATE_CACHE w1 = TRANSLATE_CACHE w
        ∧ ∃ new, new ≠ []
            ∧ trace (snd (translate_to_th env text' w1)) = (new ++ trace w1)%list
            ∧ Forall (translation_request (Py.strip text')) new)
     ∧ (th ≠ "" →
        TRANSLATE_CACHE w1 !! Py.lower (Py.strip text) = Some th
        ∧ translate_to_th env text' w2 = (th, w2))).
Proof.
  intros Ht Hkey Hwk Htk.
  assert (Py.truthy (Py.strip text') = true) as Ht'.
  { by rewrite <- truthy_lower, Hkey, truthy_lower. }
  split.
  - intros Hfail w1 w2.
    unfold w2, w1. rewrite (wikipedia_summary_failure env text w Ht Hwk Hfail).
    cbn [fst snd]. split; [done|].
    split; [cbn; by rewrite lookup_insert_eq|].
    apply wikipedia_summary_hit; [done|]. rewrite Hkey.
    destruct (run_extends env cmds sess
      (store_summary (Py.lower (Py.strip text)) empty_info
         (log_request (ReqWikipedia (Py.strip text)) w))) as (_ & Hw & _).
    apply Hw. cbn. by rewrite lookup_insert_eq.
  - intros th w1 w2.
    destruct (translate_to_th_miss env text w Ht Htk) as (Hnew & Hempty & Hfull).
    fold th w1 in Hnew, Hempty, Hfull.
    split; [exact Hnew|]. split.
    + intros Hth. split; [by apply Hempty|].
      destruct (translate_to_th_miss env text' w1 Ht') as (Hnew' & _).
      { by rewrite Hkey, (Hempty Hth). }
      exact Hnew'.
    + intros Hth.
      assert (TRANSLATE_CACHE w1 !! Py.lower (Py.strip text) = Some th) as Hin.
      { rewrite (Hfull Hth). by rewrite lookup_insert_eq. }
      split; [exact Hin|].
      apply translate_to_th_hit; [done|]. rewrite Hkey.
      destruct (run_extends env cmds sess w1) as (Hc & _ & _).
      by apply Hc.
Qed.

Lemma C8_cache_asymmetry_witness :
  let w1 := snd (wikipedia_summary demo_env "emu" initial_world) in
  let w2 := snd (run demo_env [CmdStart; CmdHint] None w1) in
  let v1 := snd (translate_to_th demo_env "emu" initial_world) in
  wikipedia_summary demo_env " EMU " w2 = (empty_info, w2)
  ∧ TRANSLATE_CACHE v1 = TRANSLATE_CACHE initial_world
  ∧ ∃ new, new ≠ []
      ∧ trace (snd (translate_to_th demo_env " EMU " v1)) = (new ++ trace v1)%list
      ∧ Forall (translation_request (Py.strip " EMU ")) new.
Proof.
  destruct (C8_cache_asymmetry demo_env initial_world "emu" " EMU "
              [CmdStart; CmdHint] None) as (H1 & _ & H2 & _).
  - reflexivity.
  - reflexivity.
  - reflexivity.
  - reflexivity.
  - destruct H1 as (_ & _ & H1); [reflexivity|].
    destruct H2 as (H2 & H3); [reflexivity|].
    split; [exact H1|]. split; [exact H2 | exact H3].
Defined.

(** ** Further properties: the word list *)

Lemma isalpha_truthy s : Py.isalpha s = true → Py.truthy s = true.
Proof. unfold Py.isalpha. by intros [H _]%andb_true_iff. Qed.

Lemma load_line_keep ANIMALS line :
  load_line ANIMALS line = (ANIMALS ++ option_list (keep_word line))%list.
Proof.
  unfold load_line, keep_word.
  destruct (Py.isalpha _) eqn:E.
  - by rewrite (isalpha_truthy _ E).
  - by rewrite andb_false_r, app_nil_r.
Qed.

Lemma fold_left_load_line lines acc :
  fold_left load_line lines acc = (acc ++ omap keep_word lines)%list.
Proof.
  revert acc. induction lines as [|line lines IH]; intros acc.
  - by rewrite app_nil_r.
  - cbn [fold_left omap list_omap]. rewrite IH, load_line_keep.
    rewrite <- app_assoc. f_equal.
    change (omap keep_word (line :: lines))
      with (match keep_word line with
            | Some y => y :: omap keep_word lines
            | None => omap keep_word lines
            end).
    by destruct (keep_word line).
Qed.

Lemma lower_char_letter c :
  Py.isalpha_char (Py.lower_char c) = true →
  Py.islower (Py.lower_char c) = true.
Proof.
  destruct c as [[] [] [] [] [] [] [] []]; vm_compute; congruence.
Qed.

Lemma chars_lower s : Py.chars (Py.lower s) = map Py.lower_char (Py.chars s).
Proof.
  induction s as [|c s IH]; [done|].
  change (Py.chars (Py.lower (String c s)))
    with (Py.lower_char c :: Py.chars (Py.lower s)).
  by rewrite IH.
Qed.

Lemma isalpha_lower_lowercase s :
  Py.isalpha (Py.lower s) = true → lowercase_word (Py.lower s).
Proof.
  intros H. split.
  - apply isalpha_truthy in H. by destruct (Py.lower s).
  - unfold Py.isalpha in H. apply andb_true_iff in H as [_ H].
    change (list_ascii_of_string (Py.lower s)) with (Py.chars (Py.lower s)) in H.
    rewrite chars_lower in *. rewrite forallb_forall in H.
    apply Forall_forall. intros c Hc.
    apply list_elem_of_In in Hc. pose proof (H c Hc) as Hc'.
    apply in_map_iff in Hc as (c0 & <- & _). by apply lower_char_letter.
Qed.

Lemma keep_word_lowercase line wd :
  keep_word line = Some wd → lowercase_word wd.
Proof.
  unfold keep_word. destruct (Py.isalpha _) eqn:E; [|done].
  intros [= <-]. by apply isalpha_lower_lowercase.
Qed.

Lemma load_words_all_lowercase lines ws :
  load_words (Some lines) = inr ws →
  ws = omap keep_word lines ∧ ws ≠ [] ∧ Forall lowercase_word ws.
Proof.
  unfold load_words. rewrite fold_left_load_line. cbn [app].
  destruct (omap keep_word lines) as [|x xs] eqn:E; [done|].
  intros [= <-]. split; [done|]. split; [done|]. rewrite <- E.
  apply Forall_forall. intros wd (line & _ & Hk)%list_elem_of_omap.
  by eapply keep_word_lowercase.
Qed.




(** ** Further properties: the letters of a round *)

Lemma char_le_transitive : Transitive Py.char_le.
Proof. intros a b c. unfold Py.char_le. lia. Qed.

Lemma char_le_total : Total Py.char_le.
Proof. intros a b. unfold Py.char_le. lia. Qed.

Lemma sorted_strongly (S : gset ascii) :
  StronglySorted Py.char_le (Py.sorted S) ∧ NoDup (Py.sorted S).
Proof.
  pose proof char_le_transitive. pose proof char_le_total. split.
  - unfold Py.sorted. by apply StronglySorted_merge_sort.
  - unfold Py.sorted. rewrite merge_sort_Permutation. apply NoDup_elements.
Qed.

Lemma pick_word_in env w : fst (pick_word env w) ∈ ANIMALS env.
Proof.
  unfold pick_word, random_choice, ANIMALS. cbn [fst].
  apply nth_elem_of. cbn [length]. apply Nat.mod_upper_bound. lia.
Qed.

Lemma wikipedia_summary_caches env title w :
  Py.truthy (Py.strip title) = true →
  WIKI_CACHE (snd (wikipedia_summary env title w)) !! Py.lower (Py.strip title)
  = Some (fst (wikipedia_summary env title w)).
Proof.
  intros Ht. unfold wikipedia_summary. rewrite Ht. cbn [negb].
  destruct (WIKI_CACHE w !! _) eqn:Hk; [done|].
  destruct (wikipedia_page _ _ _); cbn; by rewrite lookup_insert_eq.
Qed.

Lemma start_round_fresh env s l w nxt w' :
  start_round env s l w = (nxt, w') →
  word nxt ∈ ANIMALS env
  ∧ stage nxt = s ∧ life nxt = l ∧ guessed nxt = [] ∧ wrong nxt = []
  ∧ hint_letters_used nxt = 0 ∧ status nxt = Playing
  ∧ last_reveal nxt = ("", "", "", "")
  ∧ summary_cached nxt w'.
Proof.
  unfold start_round.
  pose proof (pick_word_in env w) as Hin.
  destruct (pick_word env w) as [wd w1]. cbn [fst] in Hin.
  pose proof (wikipedia_summary_caches env wd w1) as Hc.
  destruct (wikipedia_summary env wd w1) as [info w2]. cbn [fst snd] in Hc.
  intros [= <- <-]. repeat split; try done.
  unfold summary_cached. cbn [word img desc_en extract_en].
  intros Ht. rewrite (Hc Ht). by destruct info.
Qed.

Lemma all_guessed_nothing wd :
  Py.truthy wd = true → all_guessed wd (list_to_set []) = false.
Proof. by destruct wd. Qed.

Lemma round_wellformed_fresh env nxt :
  word nxt ∈ ANIMALS env → guessed nxt = [] → wrong nxt = [] →
  1 ≤ stage nxt → status nxt = Playing →
  round_wellformed env nxt.
Proof.
  intros Hw Hg Hwr Hs Hst. unfold round_wellformed.
  rewrite Hg, Hwr, Hst. repeat split; try done;
    try (intros c Hc; by apply elem_of_nil in Hc);
    try apply NoDup_nil_2; try constructor.
  intros _. apply all_guessed_nothing.
Qed.

Lemma round_wellformed_ext env st st' :
  word st' = word st → guessed st' = guessed st → wrong st' = wrong st →
  stage st' = stage st → status st' = status st →
  (status st = Failed →
   last_en st' = last_en st ∧ last_th st' = last_th st
   ∧ last_about_en st' = last_about_en st) →
  round_wellformed env st → round_wellformed env st'.
Proof.
  intros Hw Hg Hwr Hs Hst Hl. unfold round_wellformed.
  rewrite Hw, Hg, Hwr, Hs, Hst.
  intros (H1 & H2 & H3 & H4 & H5 & H6 & H7 & H8).
  split; [done|]. split; [done|]. split; [done|]. split; [done|].
  split; [done|]. split; [done|]. split; [|done].
  intros HF. destruct (Hl HF) as (-> & -> & ->). by apply H7.
Qed.

Lemma or_else_dash s : Py.or_else s "-" ≠ "".
Proof. by destruct s. Qed.

Lemma move_applied_letters env st cmd w :
  accepted st cmd →
  round_wellformed env st →
  let st1 := move_applied env st cmd w in
  (∀ c, c ∈ guessed st1 → c ∈ Py.chars (word st))
  ∧ (∀ c, c ∈ wrong st1 → c ∉ Py.chars (word st))
  ∧ (StronglySorted Py.char_le (guessed st1) ∧ NoDup (guessed st1))
  ∧ (StronglySorted Py.char_le (wrong st1) ∧ NoDup (wrong st1)).
Proof.
  intros Ha (_ & Hg & Hw & Hsg & Hsw & _). destruct cmd;
    cbn [accepted] in Ha; try tauto; cbn [move_applied].
  - destruct Ha as [_ _]. unfold guess_applied.
    destruct (bool_decide _) eqn:E;
      cbn [guessed wrong set_life set_wrong set_guessed set_message].
    + apply bool_decide_eq_true in E.
      repeat split; try apply sorted_strongly.
      * intros c. rewrite elem_of_sorted, elem_of_union, elem_of_singleton,
          elem_of_list_to_set. intros [H| ->]; [by apply Hg | done].
      * intros c. rewrite elem_of_sorted, elem_of_list_to_set. apply Hw.
    + apply bool_decide_eq_false in E.
      repeat split; try apply sorted_strongly.
      * intros c. rewrite elem_of_sorted, elem_of_list_to_set. apply Hg.
      * intros c. rewrite elem_of_sorted, elem_of_union, elem_of_singleton,
          elem_of_list_to_set. intros [H| ->]; [by apply Hw | done].
  - destruct Ha as [_ Hr]. unfold hint_applied.
    cbn [guessed wrong set_life set_hint_letters_used set_guessed set_message].
    pose proof (hint_reveal_remaining env st w Hr) as Hin.
    apply remaining_letters_spec in Hin as (Hin & _).
    repeat split; try apply sorted_strongly; try tauto.
    intros c. rewrite elem_of_sorted, elem_of_union, elem_of_singleton,
      elem_of_list_to_set. intros [H| ->]; [by apply Hg | done].
Qed.

Lemma move_wellformed env cmd st w st' resp w' :
  is_move cmd →
  round_wellformed env st →
  handle env cmd (Some st) w = (Some st', resp, w') →
  round_wellformed env st'.
Proof.
  intros Hm Hwf Hh.
  destruct (decide (status st = Playing ∧ accepted st cmd)) as [[Hs Ha]|Hn].
  - destruct (move_outcome env st cmd w Hs Ha)
      as (st2 & w2 & Heq & Hf & Hc & Hk).
    rewrite Heq in Hh. assert (st2 = st') as -> by congruence. clear Hh.
    destruct (move_applied_letters env st cmd w Ha Hwf) as (L1 & L2 & L3 & L4).
    destruct (move_applied_static env st cmd w) as (Hstage & Hword & Hst & _).
    destruct Hwf as (W1 & _ & _ & _ & _ & W6 & _ & _).
    destruct (decide (life st + life_delta st cmd ≤ 0)) as [Hle|Hgt].
    + rewrite (Hf Hle). unfold round_wellformed. cbn.
      rewrite Hword, Hstage. repeat split; try tauto; try done.
      apply or_else_dash. apply or_else_dash.
    + destruct (all_guessed (word st) (guessed_after env st cmd w)) eqn:Hg.
      * destruct Hc as (nxt & w3 & Hn & ->); [lia | done |].
        apply start_round_fresh in Hn
          as (N1 & N2 & _ & N4 & N5 & _ & N7 & _).
        apply (round_wellformed_ext env nxt); try done.
        { rewrite N7. done. }
        apply round_wellformed_fresh; try done. lia.
      * destruct Hk as [-> _]; [lia | done |].
        unfold round_wellformed. rewrite Hword, Hstage, Hst, Hs.
        repeat split; try tauto; try done.
        intros _ _. by rewrite guessed_after_stored.
  - destruct (move_rejected env st cmd w Hm) as (st2 & Heq & Hsame).
    { destruct (decide (status st = Playing)); [right | left]; tauto. }
    rewrite Heq in Hh. assert (st2 = st') as -> by congruence.
    destruct (same_but_message_fields _ _ Hsame)
      as (F1 & _ & F3 & F4 & F5 & _ & F7 & _ & F9).
    unfold last_reveal in F9. injection F9 as R1 R2 R3 R4.
    by apply (round_wellformed_ext env st).
Qed.

Lemma handle_wellformed env cmd sess w sess' resp w' :
  (∀ st, sess = Some st → round_wellformed env st) →
  handle env cmd sess w = (sess', resp, w') →
  ∀ st', sess' = Some st' → round_wellformed env st'.
Proof.
  intros Hinv Hh st' ->.
  destruct cmd.
  - destruct sess as [st|]; cbn in Hh; [|done].
    injection Hh as <- _ _. by apply Hinv.
  - cbn in Hh. by injection Hh.
  - cbn [handle] in Hh. unfold api_start, save_and_answer in Hh.
    destruct (start_round env 1 START_LIFE w) as [nxt w1] eqn:E.
    assert (nxt = st') as -> by congruence.
    apply start_round_fresh in E as (N1 & N2 & _ & N4 & N5 & _ & N7 & _).
    apply round_wellformed_fresh; try done. lia.
  - destruct sess as [st|]; [|done].
    eapply (move_wellformed env (CmdGuess guess)); [done | by apply Hinv | done].
  - destruct sess as [st|]; [|done].
    eapply (move_wellformed env CmdHint); [done | by apply Hinv | done].
Qed.

Lemma reachable_wellformed env sess w :
  reachable env sess w → ∀ st, sess = Some st → round_wellformed env st.
Proof.
  induction 1 as [|cmd sess w sess' resp w' _ IH Hh]; [done|].
  by eapply handle_wellformed.
Qed.

(** ** Further properties: what the caches hold *)

Lemma move_applied_summary env st cmd w :
  let st1 := move_applied env st cmd w in
  img st1 = img st ∧ desc_en st1 = desc_en st
  ∧ extract_en st1 = extract_en st.
Proof.
  destruct cmd; cbn [move_applied]; try done.
  unfold guess_applied. by destruct (bool_decide _).
Qed.

Lemma summary_cached_ext st st' w w' :
  word st' = word st → img st' = img st → desc_en st' = desc_en st →
  extract_en st' = extract_en st →
  world_extends w w' →
  summary_cached st w → summary_cached st' w'.
Proof.
  intros Hw Hi Hd He (_ & Hext & _) Hc. unfold summary_cached in *.
  rewrite Hw, Hi, Hd, He. intros Ht. by apply Hext, Hc.
Qed.

Lemma handle_summary_cached env cmd sess w sess' resp w' :
  (∀ st, sess = Some st → summary_cached st w) →
  handle env cmd sess w = (sess', resp, w') →
  ∀ st', sess' = Some st' → summary_cached st' w'.
Proof.
  intros Hinv Hh st' ->.
  pose proof (handle_extends env cmd sess w) as Hext.
  rewrite Hh in Hext. cbn [snd] in Hext.
  assert (∀ c st, is_move c → sess = Some st →
          handle env c (Some st) w = (Some st', resp, w') →
          world_extends w w' → summary_cached st' w') as Hmove.
  { clear Hh Hext. intros c st Hc -> Hh Hext.
    specialize (Hinv st eq_refl).
    destruct (decide (status st = Playing ∧ accepted st c)) as [[Hs Ha]|Hn].
    - destruct (move_outcome env st c w Hs Ha)
        as (st2 & w2 & Heq & Hf & Hcl & Hk).
      rewrite Heq in Hh. assert (st2 = st') as -> by congruence.
      assert (w2 = w') as -> by congruence.
      destruct (move_applied_static env st c w) as (_ & Hword & _).
      destruct (move_applied_summary env st c w) as (Hi & Hd & He).
      destruct (decide (life st + life_delta st c ≤ 0)) as [Hle|Hgt].
      + rewrite (Hf Hle). by apply (summary_cached_ext st _ w w').
      + destruct (all_guessed (word st) (guessed_after env st c w)) eqn:Hg.
        * destruct Hcl as (nxt & w3 & Hn & ->); [lia | done |].
          apply start_round_fresh in Hn as (_ & _ & _ & _ & _ & _ & _ & _ & Hn).
          apply (summary_cached_ext nxt _ w' w'); try done.
          apply world_extends_refl.
        * destruct Hk as [-> _]; [lia | done |].
          by apply (summary_cached_ext st _ w w').
    - destruct (move_rejected env st c w Hc) as (st2 & Heq & Hsame).
      { destruct (decide (status st = Playing)); [right | left]; tauto. }
      rewrite Heq in Hh. assert (st2 = st') as -> by congruence.
      unfold same_but_message, set_message in Hsame.
      injection Hsame as _ _ Hw Hi Hd He _.
      by apply (summary_cached_ext st _ w w'). }
  destruct cmd.
  - destruct sess as [st|]; cbn in Hh; [|done].
    injection Hh as <- _ <-. by apply Hinv.
  - cbn in Hh. by injection Hh.
  - cbn [handle] in Hh. unfold api_start, save_and_answer in Hh.
    destruct (start_round env 1 START_LIFE w) as [nxt w1] eqn:E.
    assert (nxt = st') as -> by congruence.
    assert (w1 = w') as -> by congruence.
    by apply start_round_fresh in E as (_ & _ & _ & _ & _ & _ & _ & _ & E).
  - destruct sess as [st|]; [|done].
    by apply (Hmove (CmdGuess guess) st).
  - destruct sess as [st|]; [|done].
    by apply (Hmove CmdHint st).
Qed.

Lemma reachable_summary_cached env sess w :
  reachable env sess w → ∀ st, sess = Some st → summary_cached st w.
Proof.
  induction 1 as [|cmd sess w sess' resp w' _ IH Hh]; [done|].
  by eapply handle_summary_cached.
Qed.

Lemma truthy_nonempty s : Py.truthy s = true → s ≠ "".
Proof. by destruct s. Qed.

Lemma translate_fallback_nonempty env text key w :
  translations_nonempty w →
  translations_nonempty (snd (translate_fallback env text key w)).
Proof.
  intros Hw. unfold translate_fallback.
  destruct (mymemory_translatedText _ _ _) as [r|]; cbn [snd]; [|done].
  destruct (Py.truthy (Py.strip r)) eqn:E; [|done].
  intros k v. cbn. rewrite lookup_insert.
  case_decide; [|apply Hw]. intros [= <-]. by apply truthy_nonempty.
Qed.

Lemma translate_to_th_nonempty env text w :
  translations_nonempty w →
  translations_nonempty (snd (translate_to_th env text w)).
Proof.
  intros Hw. unfold translate_to_th.
  destruct (negb _); [done|].
  destruct (TRANSLATE_CACHE w !! _); [done|].
  destruct (HAS_TRANSLATE_LIB env); [|by apply translate_fallback_nonempty].
  destruct (translator_translate _ _ _) as [r|];
    [|by apply translate_fallback_nonempty].
  cbn [snd]. destruct (Py.truthy (Py.strip r)) eqn:E; [|done].
  intros k v. cbn. rewrite lookup_insert.
  case_decide; [|apply Hw]. intros [= <-]. by apply truthy_nonempty.
Qed.

Lemma wikipedia_summary_translations env title w :
  TRANSLATE_CACHE (snd (wikipedia_summary env title w)) = TRANSLATE_CACHE w.
Proof.
  unfold wikipedia_summary.
  destruct (negb _); [done|]. destruct (WIKI_CACHE w !! _); [done|].
  by destruct (wikipedia_page _ _ _).
Qed.

Lemma start_round_translations env s l w :
  TRANSLATE_CACHE (snd (start_round env s l w)) = TRANSLATE_CACHE w.
Proof.
  unfold start_round, pick_word, random_choice.
  pose proof (wikipedia_summary_translations env
    (nth (random_draw env (now w) mod S (length (ANIMALS_rest env)))%nat
       (ANIMALS_first env :: ANIMALS_rest env) (ANIMALS_first env))
    (log_request ReqRandom w)) as H.
  by destruct (wikipedia_summary env _ _).
Qed.

Lemma capture_reveal_nonempty env st w :
  translations_nonempty w →
  translations_nonempty (snd (capture_reveal env st w)).
Proof.
  intros Hw. unfold capture_reveal.
  pose proof (translate_to_th_nonempty env (word st) w Hw) as H1.
  destruct (translate_to_th env (word st) w) as [th w1]. cbn [snd] in H1.
  destruct (Py.truthy _); [|done].
  pose proof (translate_to_th_nonempty env (about_text st) w1 H1) as H2.
  by destruct (translate_to_th env (about_text st) w1).
Qed.

Lemma end_of_round_nonempty env G st w :
  translations_nonempty w →
  translations_nonempty (snd (end_of_round env G st w)).
Proof.
  intros Hw. unfold end_of_round, save_and_answer.
  destruct (life st <=? 0).
  - pose proof (capture_reveal_nonempty env (set_status Failed st) w Hw).
    by destruct (capture_reveal _ _ _).
  - destruct (all_guessed _ _); [|done].
    pose proof (capture_reveal_nonempty env st w Hw) as H1.
    destruct (capture_reveal _ _ _) as [st1 w1]. cbn [snd] in H1.
    pose proof (start_round_translations env (stage st1 + 1) (life st1) w1) as H2.
    destruct (start_round _ _ _ _) as [nxt w2]. cbn [snd] in *.
    unfold translations_nonempty. by rewrite H2.
Qed.

Lemma handle_nonempty env cmd sess w :
  translations_nonempty w →
  translations_nonempty (snd (handle env cmd sess w)).
Proof.
  intros Hw.
  assert (∀ c st, is_move c →
          translations_nonempty (snd (handle env c (Some st) w))) as Hmove.
  { intros c st Hc.
    destruct (decide (status st = Playing ∧ accepted st c)) as [[Hs Ha]|Hn].
    - rewrite move_accepted by done. apply end_of_round_nonempty.
      by destruct c.
    - destruct (move_rejected env st c w Hc) as (st' & -> & _); [|done].
      destruct (decide (status st = Playing)); [right | left]; tauto. }
  destruct cmd; cbn [handle].
  - by destruct sess.
  - done.
  - unfold api_start, save_and_answer.
    pose proof (start_round_translations env 1 START_LIFE w) as H.
    destruct (start_round _ _ _ _). cbn [snd] in *.
    unfold translations_nonempty. by rewrite H.
  - destruct sess as [st|]; [|done]. by apply (Hmove (CmdGuess guess)).
  - destruct sess as [st|]; [|done]. by apply (Hmove CmdHint).
Qed.

Lemma reachable_nonempty env sess w :
  reachable env sess w → translations_nonempty w.
Proof.
  induction 1 as [|cmd sess w sess' resp w' _ IH Hh].
  - intros k v. unfold initial_world. cbn [TRANSLATE_CACHE].
    by rewrite lookup_empty.
  - pose proof (handle_nonempty env cmd sess w IH) as H.
    by rewrite Hh in H.
Qed.

(** ** Further properties: how an input is read *)













Lemma lstrip_blank s : blank s → Py.lstrip s = "".
Proof.
  unfold blank. induction s as [|c s IH]; [done|].
  change (Py.chars (String c s)) with (c :: Py.chars s).
  intros [Hc Hs]%Forall_cons. cbn [Py.lstrip]. rewrite Hc. by apply IH.
Qed.

(** A text of white space only, the empty text included, is neither
    translated nor looked up: both lookups answer at once with the empty
    result, consult nothing and leave both caches as they are. *)
Theorem blank_text_is_not_looked_up env text w :
  blank text →
  translate_to_th env text w = ("", w)
  ∧ wikipedia_summary env text w = (empty_info, w).
Proof.
  intros Hb. unfold translate_to_th, wikipedia_summary, Py.strip.
  by rewrite (lstrip_blank _ Hb).
Qed.

Lemma blank_text_is_not_looked_up_witness :
  translate_to_th demo_env "   " initial_world = ("", initial_world)
  ∧ wikipedia_summary demo_env "   " initial_world
    = (empty_info, initial_world).
Proof.
  apply (blank_text_is_not_looked_up demo_env "   " initial_world).
  repeat constructor.
Defined.

(** ** Further properties: the masked word and the clear test *)

Lemma all_guessed_cons c s G :
  all_guessed (String c s) G = bool_decide (c ∈ G) && all_guessed s G.
Proof. reflexivity. Qed.

(** For a word without an underscore of its own, the clear test of the
    handlers holds exactly when the masked word shows no placeholder. *)
Theorem masked_without_placeholder_iff_cleared (wd : string) (G : gset ascii) :
  "_"%char ∉ Py.chars wd →
  all_guessed wd G = true ↔ "_"%char ∉ Py.chars (mask_word wd G).
Proof.
  induction wd as [|c s IH]; intros Hn.
  - split; [intros _; apply not_elem_of_nil | done].
  - change (Py.chars (String c s)) with (c :: Py.chars s) in Hn.
    apply not_elem_of_cons in Hn as [Hc Hs]. specialize (IH Hs).
    rewrite all_guessed_cons, mask_word_cons, andb_true_iff,
      bool_decide_eq_true.
    assert ("_"%char ≠ mask_cell G c ↔ c ∈ G) as Hcell.
    { unfold mask_cell. case_decide; split; done. }
    destruct s as [|a s'].
    + change (Py.chars (String (mask_cell G c) "")) with [mask_cell G c].
      rewrite not_elem_of_cons, Hcell. split; [|tauto].
      intros [H _]. split; [done | apply not_elem_of_nil].
    + change (Py.chars (String (mask_cell G c)
                (String " " (mask_word (String a s') G))))
        with (mask_cell G c :: " "%char
              :: Py.chars (mask_word (String a s') G)).
      rewrite !not_elem_of_cons, Hcell, IH. split; [|tauto].
      intros [H1 H2]. split; [done|]. split; [done | done].
Qed.

Lemma masked_without_placeholder_iff_cleared_witness :
  all_guessed "cat" {["a"; "c"; "t"]}%char = true
  ↔ "_"%char ∉ Py.chars (mask_word "cat" {["a"; "c"; "t"]}%char).
Proof.
  apply (masked_without_placeholder_iff_cleared "cat").
  intros H. apply list_elem_of_In in H.
  repeat (destruct H as [H|H]; [discriminate H|]). destruct H.
Defined.

(** ** Further properties: every game the server can be in *)

Lemma reachable_word_lowercase env lines st w :
  load_words (Some lines) = inr (ANIMALS env) →
  reachable env (Some st) w →
  word st ∈ ANIMALS env ∧ lowercase_word (word st).
Proof.
  intros Hload Hreach.
  destruct (reachable_wellformed env _ _ Hreach st eq_refl) as (Hw & _).
  destruct (load_words_all_lowercase _ _ Hload) as (_ & _ & Hall).
  rewrite Forall_forall in Hall. split; [done | by apply Hall].
Qed.



(** In every reachable session entry the guessed letters all occur in the
    word, the wrong letters never do, and no letter is in both. *)
Theorem reachable_letters_partition env st w c :
  reachable env (Some st) w →
  (c ∈ guessed st → c ∈ Py.chars (word st))
  ∧ (c ∈ wrong st → c ∉ Py.chars (word st))
  ∧ ¬ (c ∈ guessed st ∧ c ∈ wrong st).
Proof.
  intros Hreach.
  destruct (reachable_wellformed env _ _ Hreach st eq_refl)
    as (_ & Hg & Hw & _).
  split; [apply Hg|]. split; [apply Hw|].
  intros [H1 H2]. by apply (Hw c H2), Hg.
Qed.

Lemma reachable_letters_partition_witness :
  ¬ ("x"%char ∈ guessed demo_lost ∧ "x"%char ∈ wrong demo_lost)
  ∧ "x"%char ∉ Py.chars (word demo_lost).
Proof.
  destruct (reachable_letters_partition demo_env demo_lost
    (snd (run demo_env demo_wrong_guesses None initial_world)) "x"%char)
    as (_ & H2 & H3).
  - replace (Some demo_lost)
      with (fst (run demo_env demo_wrong_guesses None initial_world))
      by (vm_compute; reflexivity).
    apply reachable_run, reachable_initial.
  - split; [exact H3|]. apply H2. vm_compute.
    apply list_elem_of_In. do 5 right. left. reflexivity.
Defined.

(** In every reachable session entry the lists of guessed and of wrong
    letters, the latter sent to the client as is, are in code-point order
    and hold no letter twice. *)
Theorem reachable_letter_lists_sorted env st w :
  reachable env (Some st) w →
  StronglySorted Py.char_le (guessed st) ∧ NoDup (guessed st)
  ∧ StronglySorted Py.char_le (p_wrong (public_state st))
  ∧ NoDup (p_wrong (public_state st)).
Proof.
  intros Hreach.
  destruct (reachable_wellformed env _ _ Hreach st eq_refl)
    as (_ & _ & _ & [H1 H2] & [H3 H4] & _).
  done.
Qed.

Lemma reachable_letter_lists_sorted_witness :
  wrong demo_lost = ["k"; "q"; "u"; "v"; "w"; "x"; "y"; "z"]%char
  ∧ StronglySorted Py.char_le (p_wrong (public_state demo_lost))
  ∧ NoDup (p_wrong (public_state demo_lost)).
Proof.
  destruct (reachable_letter_lists_sorted demo_env demo_lost
    (snd (run demo_env demo_wrong_guesses None initial_world)))
    as (_ & _ & H3 & H4).
  - replace (Some demo_lost)
      with (fst (run demo_env demo_wrong_guesses None initial_world))
      by (vm_compute; reflexivity).
    apply reachable_run, reachable_initial.
  - split; [vm_compute; reflexivity|]. split; [exact H3 | exact H4].
Defined.

(** Every reachable failed session entry still holds the word that was
    lost and shows it: the revealed word is that word, and neither the
    translated word nor the about text of the reveal is empty. *)
Theorem reachable_failed_reveals_word env st w :
  reachable env (Some st) w →
  status st = Failed →
  p_last_en (public_state st) = word st
  ∧ p_last_th (public_state st) ≠ ""
  ∧ p_last_about_en (public_state st) ≠ ""
  ∧ life st ≤ 0.
Proof.
  intros Hreach Hs.
  destruct (reachable_wellformed env _ _ Hreach st eq_refl)
    as (_ & _ & _ & _ & _ & _ & Hf & _).
  destruct (Hf Hs) as (H1 & H2 & H3).
  destruct (reachable_invariant env _ _ Hreach st eq_refl) as [Hl _].
  repeat split; try done. by apply Hl.
Qed.

Lemma reachable_failed_reveals_word_witness :
  p_last_en (public_state demo_lost) = "cat"
  ∧ p_last_th (public_state demo_lost) ≠ ""
  ∧ life demo_lost ≤ 0.
Proof.
  destruct (reachable_failed_reveals_word demo_env demo_lost
    (snd (run demo_env demo_wrong_guesses None initial_world)))
    as (H1 & H2 & _ & H4).
  - replace (Some demo_lost)
      with (fst (run demo_env demo_wrong_guesses None initial_world))
      by (vm_compute; reflexivity).
    apply reachable_run, reachable_initial.
  - vm_compute. reflexivity.
  - split; [exact H1|]. split; [exact H2 | exact H4].
Defined.

Lemma all_guessed_false_missing wd (G : gset ascii) :
  all_guessed wd G = false → ∃ c, c ∈ Py.chars wd ∧ c ∉ G.
Proof.
  induction wd as [|c s IH]; [done|].
  rewrite all_guessed_cons.
  change (Py.chars (String c s)) with (c :: Py.chars s).
  destruct (bool_decide (c ∈ G)) eqn:E.
  - cbn [andb]. intros (x & Hx & Hn)%IH. exists x. split; [by right | done].
  - intros _. apply bool_decide_eq_false in E. exists c. split; [by left | done].
Qed.

(** In a reachable session entry that is still playing, with the word list
    loaded from a file, at least one letter of the word is not guessed yet
    (a cleared word is never left on display), so a hint is accepted
    whenever fewer than two were used: "no letters left" cannot come up. *)
Theorem reachable_playing_has_letter_left env lines st w :
  load_words (Some lines) = inr (ANIMALS env) →
  reachable env (Some st) w →
  status st = Playing →
  (∃ c, c ∈ Py.chars (word st) ∧ c ∉ guessed st)
  ∧ 0 < life st
  ∧ (hint_letters_used st < HINT_LETTER_MAX → accepted st CmdHint).
Proof.
  intros Hload Hreach Hs.
  destruct (reachable_word_lowercase env lines st w Hload Hreach)
    as (_ & [Hne Hlow]).
  destruct (reachable_wellformed env _ _ Hreach st eq_refl)
    as (_ & _ & _ & _ & _ & _ & _ & Hleft).
  assert (Py.truthy (word st) = true) as Ht by by destruct (word st).
  destruct (all_guessed_false_missing _ _ (Hleft Hs Ht)) as (c & Hc & Hg).
  rewrite elem_of_list_to_set in Hg.
  split; [by exists c|]. split.
  - destruct (reachable_invariant env _ _ Hreach st eq_refl) as [Hl _].
    destruct (decide (life st ≤ 0)) as [Hle|]; [|lia].
    apply Hl in Hle. congruence.
  - intros Hu. split; [done|].
    assert (c ∈ remaining_letters st) as Hin.
    { apply remaining_letters_spec. split; [done|]. split; [|done].
      rewrite Forall_forall in Hlow. unfold Py.isalpha_char.
      by rewrite (Hlow c Hc), orb_true_r. }
    intros Hnil. rewrite Hnil in Hin. by apply elem_of_nil in Hin.
Qed.

Lemma reachable_playing_has_letter_left_witness :
  let st := default (demo_round "" 0 [] [] 0 Failed)
              (fst (run demo_env demo_game None initial_world)) in
  (∃ c, c ∈ Py.chars (word st) ∧ c ∉ guessed st) ∧ accepted st CmdHint.
Proof.
  cbn zeta.
  destruct (reachable_playing_has_letter_left demo_env demo_lines
    (default (demo_round "" 0 [] [] 0 Failed)
       (fst (run demo_env demo_game None initial_world)))
    (snd (run demo_env demo_game None initial_world)))
    as (H1 & _ & H3).
  - vm_compute. reflexivity.
  - replace (Some _)
      with (fst (run demo_env demo_game None initial_world))
      by (vm_compute; reflexivity).
    apply reachable_run, reachable_initial.
  - vm_compute. reflexivity.
  - split; [exact H1|]. apply H3. vm_compute. reflexivity.
Defined.

(** ** Further properties: the effect of a move *)

(** An accepted move from a playing state ends in failure exactly when it
    leaves life at zero or below; in a reachable state, where life is
    positive, a guess of a letter of the word therefore never fails, a
    wrong guess fails exactly at life 1 and a hint exactly at life 1 or
    2. *)
Theorem move_fails_iff_life_runs_out env st cmd w :
  reachable env (Some st) w →
  status st = Playing →
  accepted st cmd →
  ∃ st' w',
    handle env cmd (Some st) w = (Some st', RespState (public_state st'), w')
    ∧ (status st' = Failed ↔ life st + life_delta st cmd ≤ 0)
    ∧ (status st' = Failed ↔
       match cmd with
       | CmdGuess guess =>
           (guess_letter guess ∉ Py.chars (word st)) ∧ life st = 1
       | _ => life st ≤ 2
       end).
Proof.
  intros Hreach Hs Ha.
  destruct (reachable_invariant env _ _ Hreach st eq_refl) as [Hl _].
  assert (0 < life st) as Hpos.
  { destruct (decide (life st ≤ 0)) as [Hle|]; [|lia].
    apply Hl in Hle. congruence. }
  destruct (move_outcome env st cmd w Hs Ha) as (st' & w' & Heq & Hf & Hc & Hk).
  exists st', w'. split; [done|].
  destruct (move_applied_static env st cmd w) as (_ & _ & Hst & _).
  assert (status st' = Failed ↔ life st + life_delta st cmd ≤ 0) as Hiff.
  { destruct (decide (life st + life_delta st cmd ≤ 0)) as [Hle|Hgt].
    - rewrite (Hf Hle). done.
    - destruct (all_guessed (word st) (guessed_after env st cmd w)) eqn:Hg.
      + destruct Hc as (nxt & w3 & Hn & ->); [lia | done |].
        apply start_round_fresh in Hn as (_ & _ & _ & _ & _ & _ & N7 & _).
        cbn. rewrite N7. split; [done | lia].
      + destruct Hk as [-> _]; [lia | done |].
        rewrite Hst, Hs. split; [done | lia]. }
  split; [exact Hiff|]. rewrite Hiff.
  destruct cmd; cbn [accepted] in Ha; try tauto; cbn [life_delta].
  - destruct (bool_decide _) eqn:E.
    + apply bool_decide_eq_true in E. split; [lia | tauto].
    + apply bool_decide_eq_false in E. split; [intros; split; [done | lia] | lia].
  - lia.
Qed.

Lemma move_fails_iff_life_runs_out_witness :
  let st := default (demo_round "" 0 [] [] 0 Failed)
              (fst (run demo_env demo_game None initial_world)) in
  ∃ st' w',
    handle demo_env (CmdGuess (Some "o")) (Some st)
      (snd (run demo_env demo_game None initial_world))
    = (Some st', RespState (public_state st'), w')
    ∧ status st' ≠ Failed.
Proof.
  cbn zeta.
  destruct (move_fails_iff_life_runs_out demo_env
    (default (demo_round "" 0 [] [] 0 Failed)
       (fst (run demo_env demo_game None initial_world)))
    (CmdGuess (Some "o"))
    (snd (run demo_env demo_game None initial_world)))
    as (st' & w' & Heq & _ & Hiff).
  - replace (Some _)
      with (fst (run demo_env demo_game None initial_world))
      by (vm_compute; reflexivity).
    apply reachable_run, reachable_initial.
  - vm_compute. reflexivity.
  - vm_compute. repeat split; intros H; apply list_elem_of_In in H; destruct H.
  - exists st', w'. split; [exact Heq|].
    intros HF. apply Hiff in HF as [HF _]. apply HF.
    vm_compute. apply list_elem_of_here.
Defined.

(** A fresh valid guess that neither fails nor clears the round adds its
    letter to guessed when the word has it and to wrong when it has not,
    and leaves the other list, the word, the stage, the hint count and the
    reveal as they were; nothing is looked up, the world is unchanged. *)
Theorem continuing_guess_records_letter env st guess w x :
  status st = Playing →
  accepted st (CmdGuess guess) →
  0 < life st + life_delta st (CmdGuess guess) →
  all_guessed (word st) (guessed_after env st (CmdGuess guess) w) = false →
  ∃ st',
    api_guess env guess (Some st) w
    = (Some st', RespState (public_state st'), w)
    ∧ (x ∈ guessed st' ↔
       x ∈ guessed st
       ∨ (x = guess_letter guess ∧ guess_letter guess ∈ Py.chars (word st)))
    ∧ (x ∈ wrong st' ↔
       x ∈ wrong st
       ∨ (x = guess_letter guess ∧ guess_letter guess ∉ Py.chars (word st)))
    ∧ word st' = word st ∧ stage st' = stage st ∧ status st' = Playing
    ∧ hint_letters_used st' = hint_letters_used st
    ∧ last_reveal st' = last_reveal st.
Proof.
  intros Hs Ha Hl Hg.
  destruct (move_outcome env st (CmdGuess guess) w Hs Ha)
    as (st' & w' & Heq & _ & _ & Hk).
  destruct (Hk Hl Hg) as [-> ->]. cbn [handle world_at_check] in Heq.
  eexists. split; [exact Heq|].
  cbn [move_applied]. unfold guess_applied.
  destruct (bool_decide _) eqn:E;
    [apply bool_decide_eq_true in E | apply bool_decide_eq_false in E];
    cbn [guessed wrong word stage status hint_letters_used last_reveal
         last_en last_th last_about_en last_about_th
         set_life set_wrong set_guessed set_message];
    rewrite !elem_of_sorted, ?elem_of_union, ?elem_of_singleton,
      !elem_of_list_to_set;
    repeat split; try done; try tauto.
Qed.

Lemma continuing_guess_records_letter_witness :
  ∃ st',
    api_guess demo_env (Some "c") (Some (demo_round "cat" 8 [] [] 0 Playing))
      initial_world
    = (Some st', RespState (public_state st'), initial_world)
    ∧ ("c"%char ∈ guessed st' ↔
       "c"%char ∈ @nil ascii
       ∨ ("c"%char = "c"%char ∧ "c"%char ∈ Py.chars "cat")).
Proof.
  destruct (continuing_guess_records_letter demo_env
              (demo_round "cat" 8 [] [] 0 Playing) (Some "c") initial_world
              "c"%char) as (st' & Heq & H1 & _).
  - reflexivity.
  - vm_compute. repeat split; intros H; apply list_elem_of_In in H; destruct H.
  - vm_compute. reflexivity.
  - vm_compute. reflexivity.
  - exists st'. split; [exact Heq | exact H1].
Defined.



(** ** Further properties: sessions *)

(** A start makes the same kind of round whatever the session held
    before, be it nothing, a game in progress or a lost game: stage 1, the
    starting life of 8, no letter tried, no hint used, an empty reveal, a
    word of the list, the summary of that word in the cache when the word
    is not blank, and a masked word of the length of the word. *)
Theorem start_replaces_any_session env sess w :
  ∃ st' w',
    handle env CmdStart sess w = (Some st', RespState (public_state st'), w')
    ∧ stage st' = 1 ∧ life st' = START_LIFE ∧ status st' = Playing
    ∧ guessed st' = [] ∧ wrong st' = [] ∧ hint_letters_used st' = 0
    ∧ last_reveal st' = ("", "", "", "")
    ∧ word st' ∈ ANIMALS env
    ∧ summary_cached st' w'
    ∧ world_extends w w'.
Proof.
  cbn [handle]. unfold api_start, save_and_answer.
  pose proof (start_round_extends env 1 START_LIFE w) as Hext.
  destruct (start_round env 1 START_LIFE w) as [nxt w'] eqn:E.
  apply start_round_fresh in E
    as (N1 & N2 & N3 & N4 & N5 & N6 & N7 & N8 & N9).
  exists nxt, w'. cbn [snd] in Hext. do 10 (split; [done|]). exact Hext.
Qed.

(** Without a game, that is before any start and after a reset, nothing
    but a start creates one: the state query answers that there is no
    game, a guess and a hint answer the no-game error, and any run of
    such commands leaves the session absent and the world untouched. *)
Theorem no_game_until_start env cmd cmds sess w :
  cmd ≠ CmdStart →
  Forall (fun c => c ≠ CmdStart) cmds →
  handle env cmd None w =
    (None,
     match cmd with
     | CmdState => RespNoGame
     | CmdReset => RespOk
     | _ => RespErrorNoGame
     end, w)
  ∧ run env cmds None w = (None, w)
  ∧ run env (CmdReset :: cmds) sess w = (None, w).
Proof.
  intros Hc Hall.
  assert (∀ c, c ≠ CmdStart → ∃ r, handle env c None w = (None, r, w)) as H.
  { intros c Hn. destruct c; try done; by eexists. }
  assert (run env cmds None w = (None, w)) as Hrun.
  { induction Hall as [|c cs Hn _ IH]; [done|].
    cbn [run]. destruct (H c Hn) as [r ->]. exact IH. }
  split; [by destruct cmd|]. split; [exact Hrun|].
  cbn [run handle api_reset]. exact Hrun.
Qed.

Lemma no_game_until_start_witness :
  run demo_env [CmdReset; CmdGuess (Some "a"); CmdHint; CmdState]
    (Some demo_lost) initial_world = (None, initial_world).
Proof.
  destruct (no_game_until_start demo_env CmdHint
              [CmdGuess (Some "a"); CmdHint; CmdState] (Some demo_lost)
              initial_world) as (_ & _ & H).
  - discriminate.
  - repeat constructor; discriminate.
  - exact H.
Defined.

(** ** Further properties: the caches over a whole session *)

(** No command ever removes or changes a cache entry or forgets a
    consultation: whatever is cached before a run of commands is cached,
    with the same value, after it. *)
Theorem caches_only_grow env cmds sess w key :
  let w' := snd (run env cmds sess w) in
  (∀ th, TRANSLATE_CACHE w !! key = Some th →
         TRANSLATE_CACHE w' !! key = Some th)
  ∧ (∀ out, WIKI_CACHE w !! key = Some out → WIKI_CACHE w' !! key = Some out)
  ∧ ∃ new, trace w' = (new ++ trace w)%list.
Proof.
  destruct (run_extends env cmds sess w) as (H1 & H2 & H3).
  split; [apply H1|]. split; [apply H2 | exact H3].
Qed.

(** In every world the server can reach no cached translation is empty, so
    a cache hit never answers the empty string, and a translation that
    does answer the empty string has left the cache as it was. *)
Theorem reachable_translations_nonempty env sess w text key th :
  reachable env sess w →
  (TRANSLATE_CACHE w !! key = Some th → th ≠ "")
  ∧ (fst (translate_to_th env text w) = "" →
     TRANSLATE_CACHE (snd (translate_to_th env text w)) = TRANSLATE_CACHE w)
  ∧ (TRANSLATE_CACHE (snd (translate_to_th env text w)) !! key = Some th →
     th ≠ "").
Proof.
  intros Hreach. pose proof (reachable_nonempty env _ _ Hreach) as Hne.
  split; [apply Hne|]. split.
  - destruct (Py.truthy (Py.strip text)) eqn:Ht.
    + destruct (TRANSLATE_CACHE w !! Py.lower (Py.strip text)) as [v|] eqn:Hk.
      * by rewrite (translate_to_th_hit env text w v Ht Hk).
      * destruct (translate_to_th_miss env text w Ht Hk) as (_ & H & _).
        exact H.
    + unfold translate_to_th. by rewrite Ht.
  - apply (translate_to_th_nonempty env text w Hne).
Qed.

Lemma reachable_translations_nonempty_witness :
  let w := snd (run demo_env demo_game None initial_world) in
  TRANSLATE_CACHE w !! "cat" = Some "แมว"
  ∧ (fst (translate_to_th demo_env "dog" w) = "" →
     TRANSLATE_CACHE (snd (translate_to_th demo_env "dog" w))
     = TRANSLATE_CACHE w).
Proof.
  cbn zeta.
  destruct (reachable_translations_nonempty demo_env
    (fst (run demo_env demo_game None initial_world))
    (snd (run demo_env demo_game None initial_world))
    "dog" "cat" "แมว") as (_ & H2 & _).
  - apply reachable_run, reachable_initial.
  - split; [vm_compute; reflexivity | exact H2].
Defined.

(** A summary is fetched at most once per key: after a call for a title
    that is not blank, every later call for a title with the same key,
    whatever commands are handled in between, answers the record of the
    first call, found or failed, without consulting Wikipedia. *)
Theorem wikipedia_summary_fetched_once env title title' cmds sess w :
  Py.truthy (Py.strip title) = true →
  Py.lower (Py.strip title') = Py.lower (Py.strip title) →
  let out := fst (wikipedia_summary env title w) in
  let w1 := snd (wikipedia_summary env title w) in
  let w2 := snd (run env cmds sess w1) in
  wikipedia_summary env title' w2 = (out, w2).
Proof.
  intros Ht Hkey out w1 w2.
  assert (Py.truthy (Py.strip title') = true) as Ht'.
  { by rewrite <- truthy_lower, Hkey, truthy_lower. }
  apply wikipedia_summary_hit; [done|]. rewrite Hkey.
  destruct (run_extends env cmds sess w1) as (_ & Hw & _).
  apply Hw. by apply wikipedia_summary_caches.
Qed.

Lemma wikipedia_summary_fetched_once_witness :
  let w1 := snd (wikipedia_summary demo_env "Owl" initial_world) in
  let w2 := snd (run demo_env demo_game None w1) in
  wikipedia_summary demo_env " owl " w2
  = ({| wi_img := "https://upload.example/Owl";
        wi_desc_en := "Animal called Owl"; wi_extract_en := "" |}, w2).
Proof.
  apply (wikipedia_summary_fetched_once demo_env "Owl" " owl " demo_game None
           initial_world); reflexivity.
Defined.

(** The picture and the texts a reachable round carries are the cached
    summary of its word: asking the summary of the word again answers
    exactly them and consults nothing. *)
Theorem reachable_round_shows_cached_summary env st w :
  reachable env (Some st) w →
  Py.truthy (Py.strip (word st)) = true →
  wikipedia_summary env (word st) w =
  ({| wi_img := p_img (public_state st); wi_desc_en := desc_en st;
      wi_extract_en := extract_en st |}, w).
Proof.
  intros Hreach Ht.
  apply wikipedia_summary_hit; [done|].
  by apply (reachable_summary_cached env _ _ Hreach st eq_refl).
Qed.

Lemma reachable_round_shows_cached_summary_witness :
  let w := snd (run demo_env demo_wrong_guesses None initial_world) in
  wikipedia_summary demo_env "cat" w =
  ({| wi_img := "https://upload.example/cat";
      wi_desc_en := "Animal called cat"; wi_extract_en := "" |}, w).
Proof.
  cbn zeta.
  pose proof (reachable_round_shows_cached_summary demo_env demo_lost
    (snd (run demo_env demo_wrong_guesses None initial_world))) as H.
  apply H.
  - replace (Some demo_lost)
      with (fst (run demo_env demo_wrong_guesses None initial_world))
      by (vm_compute; reflexivity).
    apply reachable_run, reachable_initial.
  - reflexivity.
Defined.

(** One translation call consults at most two services, both about the
    stripped text, and none when the text is blank or its key is cached;
    MyMemory is consulted only when the translation library is missing or
    raised, so an empty answer of the library is final. *)
Theorem translate_to_th_requests env text w :
  let t := Py.strip text in
  let w1 := snd (translate_to_th env text w) in
  ∃ new,
    trace w1 = (new ++ trace w)%list
    ∧ (length new ≤ 2)%nat
    ∧ Forall (translation_request t) new
    ∧ (ReqMyMemory t ∈ new →
       HAS_TRANSLATE_LIB env = false
       ∨ translator_translate env (now w) t = None)
    ∧ (Py.truthy t = false ∨ is_Some (TRANSLATE_CACHE w !! Py.lower t) →
       new = [] ∧ w1 = w).
Proof.
  intros t w1. unfold w1, translate_to_th. fold t.
  destruct (Py.truthy t) eqn:Ht; cbn [negb].
  2:{ exists []. split; [done|]. split; [cbn; lia|]. split; [constructor|].
      split; [|done]. intros H. by apply elem_of_nil in H. }
  destruct (TRANSLATE_CACHE w !! Py.lower t) as [v|] eqn:Hk.
  { exists []. split; [done|]. split; [cbn; lia|]. split; [constructor|].
    split; [|done]. intros H. by apply elem_of_nil in H. }
  destruct (HAS_TRANSLATE_LIB env) eqn:Hlib.
  - destruct (translator_translate env (now w) t) as [r|] eqn:Hr.
    + exists [ReqTranslator t]. cbn [snd].
      split; [by destruct (Py.truthy (Py.strip r))|].
      split; [cbn; lia|]. split; [repeat constructor|].
      split; [|intros [H|[? H]]; discriminate H].
      intros H. apply list_elem_of_In in H. by destruct H as [H|[]].
    + destruct (translate_fallback_miss env t (Py.lower t)
                  (log_request (ReqTranslator t) w)) as (H1 & _).
      exists [ReqMyMemory t; ReqTranslator t]. rewrite H1.
      split; [done|]. split; [cbn; lia|].
      split; [repeat constructor; by right|].
      split; [by right | intros [H|[? H]]; discriminate H].
  - destruct (translate_fallback_miss env t (Py.lower t) w) as (H1 & _).
    exists [ReqMyMemory t]. rewrite H1.
    split; [done|]. split; [cbn; lia|].
    split; [repeat constructor; by right|].
    split; [by left | intros [H|[? H]]; discriminate H].
Qed.

Lemma handle_stage env cmd st w :
  cmd ≠ CmdStart → cmd ≠ CmdReset →
  ∃ st' r w',
    handle env cmd (Some st) w = (Some st', r, w')
    ∧ stage st ≤ stage st' ≤ stage st + 1.
Proof.
  intros H1 H2.
  assert (is_move cmd → ∃ st' r w',
    handle env cmd (Some st) w = (Some st', r, w')
    ∧ stage st ≤ stage st' ≤ stage st + 1) as Hmove.
  { intros Hm.
    destruct (decide (status st = Playing ∧ accepted st cmd)) as [[Hs Ha]|Hn].
    - destruct (move_outcome env st cmd w Hs Ha)
        as (st' & w' & Heq & Hf & Hc & Hk).
      exists st', (RespState (public_state st')), w'. split; [done|].
      destruct (move_applied_static env st cmd w) as (Hstage & _).
      destruct (decide (life st + life_delta st cmd ≤ 0)) as [Hle|Hgt].
      + rewrite (Hf Hle). cbn. lia.
      + destruct (all_guessed (word st) (guessed_after env st cmd w)) eqn:Hg.
        * destruct Hc as (nxt & w3 & Hn & ->); [lia | done |].
          apply start_round_fresh in Hn as (_ & N2 & _). cbn. lia.
        * destruct Hk as [-> _]; [lia | done |]. lia.
    - destruct (move_rejected env st cmd w Hm) as (st' & Heq & Hsame).
      { destruct (decide (status st = Playing)); [right | left]; tauto. }
      exists st', (RespState (public_state st')), w. split; [done|].
      destruct (same_but_message_fields _ _ Hsame) as (F1 & _). lia. }
  destruct cmd; try done; try by apply Hmove.
  exists st, (RespState (public_state st)), w. split; [done | lia].
Qed.

(** While a game goes on, that is over any run of state queries, guesses
    and hints, the session keeps a game and its stage never goes down; it
    goes up by at most one per command. *)
Theorem stage_never_decreases env cmds st w :
  Forall (fun c => c ≠ CmdStart ∧ c ≠ CmdReset) cmds →
  ∃ st' w',
    run env cmds (Some st) w = (Some st', w')
    ∧ stage st ≤ stage st' ≤ stage st + Z.of_nat (length cmds).
Proof.
  intros Hall. revert st w.
  induction Hall as [|c cs [H1 H2] _ IH]; intros st w.
  - exists st, w. split; [done | cbn; lia].
  - destruct (handle_stage env c st w H1 H2) as (st1 & r & w1 & Heq & Hs).
    destruct (IH st1 w1) as (st' & w' & Hrun & Hs').
    exists st', w'. cbn [run]. rewrite Heq. split; [done|].
    cbn [length]. lia.
Qed.

Lemma stage_never_decreases_witness :
  ∃ st' w',
    run demo_env [CmdGuess (Some "t"); CmdState; CmdHint]
      (Some (demo_round "cat" 9 ["a"; "c"]%char ["x"%char] 0 Playing))
      initial_world = (Some st', w')
    ∧ 1 ≤ stage st' ≤ 1 + 3.
Proof.
  apply (stage_never_decreases demo_env
           [CmdGuess (Some "t"); CmdState; CmdHint]
           (demo_round "cat" 9 ["a"; "c"]%char ["x"%char] 0 Playing)
           initial_world).
  repeat constructor; discriminate.
Defined.
